(** * Slot inference layer of the dialog agent (slots.py)

    A shallow embedding of the slot hierarchy, the fuzzy dictionary
    resolution, the compositional resolution and the schema loader, and the
    properties of the specification checked against them.

    Conventions.
    - Python [str] values are their UTF-8 byte strings ([String.string]).
    - A Python [dict] from strings to strings is an association list in
      insertion order with one binding per key, since the resolution loop
      depends on the order in which keys are iterated.
    - A method that may raise returns a [result]; [Raise e] is the exception.
    - External collaborators (the fuzzy matcher [fuzz.partial_ratio], the
      tokenizer [pipeline.feed], the recognizer [Tomita.get_json], the file
      system seen through [os.path.exists] and [joblib.load]) are parameters
      of the definitions that call them. *)

From Stdlib Require Import List String Ascii ZArith Bool Lia.
Import ListNotations.
Local Open Scope string_scope.
Local Open Scope Z_scope.

Set Implicit Arguments.
Set Warnings "-register-all".

(** ** Exceptions *)

Inductive exn : Type :=
| Exception_ (msg : string)
| NotImplementedError (msg : string)
| KeyError (key : string)
| AttributeError (name : string)
| IndexError
| ValueError
| AssertionError.

Inductive result (A : Type) : Type :=
| Ok (a : A)
| Raise (e : exn).

Arguments Ok {A} a.
Arguments Raise {A} e.

Definition bind {A B : Type} (m : result A) (f : A -> result B) : result B :=
  match m with
  | Ok a => f a
  | Raise e => Raise e
  end.

Notation "x <- m ;; k" := (bind m (fun x => k))
  (at level 61, m at next level, right associativity).

(** ** Python string operations used by the module *)

Module PyStr.

(** The white space of one byte on which [str.split()] and [str.strip()]
    cut: space, tab, newline, VT, FF, return, and FS, GS, RS, US. *)
Definition is_space (c : ascii) : bool :=
  let n := nat_of_ascii c in
  (Nat.eqb n 32 || (Nat.leb 9 n && Nat.leb n 13) || (Nat.leb 28 n && Nat.leb n 31))%bool.

(** The number of bytes of the white-space character that starts [s], 0 if
    [s] starts with none. Besides the characters of one byte these are, in
    UTF-8, U+0085 and U+00A0 (C2 85, C2 A0), U+1680 (E1 9A 80), U+2000 to
    U+200A, U+2028, U+2029 and U+202F (E2 80 80..8A, A8, A9, AF), U+205F
    (E2 81 9F) and U+3000 (E3 80 80): the characters for which
    [str.isspace] holds. *)
Definition space_width (s : string) : nat :=
  match s with
  | EmptyString => 0
  | String a rest =>
      if is_space a then 1
      else
        match rest with
        | String b rest' =>
            let x := nat_of_ascii a in
            let y := nat_of_ascii b in
            if (Nat.eqb x 194 && (Nat.eqb y 133 || Nat.eqb y 160))%bool then 2
            else
              match rest' with
              | String d _ =>
                  let z := nat_of_ascii d in
                  if ((Nat.eqb x 225 && Nat.eqb y 154 && Nat.eqb z 128)
                      || (Nat.eqb x 226 && Nat.eqb y 128
                          && ((Nat.leb 128 z && Nat.leb z 138)
                              || Nat.eqb z 168 || Nat.eqb z 169 || Nat.eqb z 175))
                      || (Nat.eqb x 226 && Nat.eqb y 129 && Nat.eqb z 159)
                      || (Nat.eqb x 227 && Nat.eqb y 128 && Nat.eqb z 128))%bool
                  then 3 else 0
              | EmptyString => 0
              end
        | EmptyString => 0
        end
  end.

(** [sep.join(parts)] *)
Fixpoint join (sep : string) (parts : list string) : string :=
  match parts with
  | [] => ""
  | [p] => p
  | p :: rest => p ++ sep ++ join sep rest
  end.

Fixpoint concat_all (parts : list string) : string :=
  match parts with
  | [] => ""
  | p :: rest => p ++ concat_all rest
  end.

(** [s.split(c)] for a one-character separator: never returns an empty
    list, [''.split(c)] is [['']]. *)
Fixpoint split_char (c : ascii) (s : string) : list string :=
  match s with
  | EmptyString => [""]
  | String a rest =>
      if Ascii.eqb a c then "" :: split_char c rest
      else match split_char c rest with
           | [] => [String a ""]
           | w :: ws => String a w :: ws
           end
  end.

(** [s.split()]: the maximal runs of characters that are not white space.
    [cur] is the run being read, in reverse; [skip] counts the bytes of a
    white-space character that are still to be dropped. *)
Fixpoint rev_string (acc s : string) : string :=
  match s with
  | EmptyString => acc
  | String a rest => rev_string (String a acc) rest
  end.

Fixpoint split_ws_aux (skip : nat) (cur : string) (s : string) : list string :=
  match s with
  | EmptyString =>
      match cur with EmptyString => [] | _ => [rev_string "" cur] end
  | String a rest =>
      match skip with
      | S k => split_ws_aux k cur rest
      | O =>
          match space_width s with
          | O => split_ws_aux O (String a cur) rest
          | S k =>
              match cur with
              | EmptyString => split_ws_aux k "" rest
              | _ => rev_string "" cur :: split_ws_aux k "" rest
              end
          end
      end
  end.

Definition split_ws (s : string) : list string := split_ws_aux O "" s.

(** [s.lstrip()]; [skip] counts the bytes of a white-space character that
    are still to be dropped. *)
Fixpoint lstrip_aux (skip : nat) (s : string) : string :=
  match s with
  | EmptyString => ""
  | String a rest =>
      match skip with
      | S k => lstrip_aux k rest
      | O =>
          match space_width s with
          | O => s
          | S k => lstrip_aux k rest
          end
      end
  end.

Definition lstrip (s : string) : string := lstrip_aux O s.

(** [s] consists of white-space characters only. *)
Fixpoint all_space_aux (skip : nat) (s : string) : bool :=
  match s with
  | EmptyString => true
  | String a rest =>
      match skip with
      | S k => all_space_aux k rest
      | O =>
          match space_width s with
          | O => false
          | S k => all_space_aux k rest
          end
      end
  end.

(** [s.rstrip()]: cut where the rest of the string is white space. *)
Fixpoint rstrip (s : string) : string :=
  match s with
  | EmptyString => ""
  | String a rest => if all_space_aux O s then "" else String a (rstrip rest)
  end.

(** [s.strip()] *)
Definition strip (s : string) : string := rstrip (lstrip s).

(** [s.replace(old, new)] for a non-empty [old]: occurrences are replaced
    from the left and do not overlap. [skip] counts the characters of the
    occurrence just replaced that are still to be dropped. *)
Fixpoint replace_aux (old new : string) (skip : nat) (s : string) : string :=
  match s with
  | EmptyString => ""
  | String a rest =>
      match skip with
      | S k => replace_aux old new k rest
      | O =>
          if prefix old s
          then new ++ replace_aux old new (Nat.pred (length old)) rest
          else String a (replace_aux old new O rest)
      end
  end.

Definition replace (old new : string) (s : string) : string :=
  replace_aux old new O s.

(** [s.startswith(p)] and [s.endswith(p)] *)
Definition startswith (p s : string) : bool := prefix p s.
Definition endswith (p s : string) : bool :=
  prefix (rev_string "" p) (rev_string "" s).

End PyStr.

(** [os.path.join(a, b)] on a POSIX system, for two components. *)
Definition os_path_join (a b : string) : string :=
  if PyStr.startswith "/" b then b
  else if (String.eqb a "" || PyStr.endswith "/" a)%bool then a ++ b
  else a ++ "/" ++ b.

(** ** Dictionaries *)

Definition dict : Type := list (string * string).

Fixpoint dict_get (d : dict) (k : string) : option string :=
  match d with
  | [] => None
  | (k', v) :: rest => if String.eqb k' k then Some v else dict_get rest k
  end.

(** [d[k] = v]: an existing key keeps its position, a new key goes last. *)
Fixpoint dict_set (d : dict) (k v : string) : dict :=
  match d with
  | [] => [(k, v)]
  | (k', v') :: rest =>
      if String.eqb k' k then (k, v) :: rest else (k', v') :: dict_set rest k v
  end.

(** Iterating a dictionary yields its keys in insertion order. *)
Definition dict_keys (d : dict) : list string := map fst d.

(** [d.get(k, default)] *)
Definition dict_get_default (d : dict) (k default : string) : string :=
  match dict_get d k with
  | Some v => v
  | None => default
  end.

(** ** Tokens and collaborators *)

(** A token is a mapping that exposes its surface string under ['_text']. *)
Record token : Type := Token { _text : string }.

(** [fuzz.partial_ratio] *)
Definition scorer : Type := string -> string -> Z.

(** [pipeline.feed] *)
Definition tokenizer : Type := string -> list token.

(** [Tomita.get_json]: the recognizer's output as JSON text, the empty
    string standing for an empty (falsy) output. *)
Definition recognizer : Type := string -> string.

(** A fitted model, seen through [bool(model.predict(text)[0])]. *)
Definition model : Type := list token -> result bool.

(** The artifacts on disk: [fs path] is [Some m] when [path] exists and
    [joblib.load(path)] returns [m], and [None] when [path] does not exist.
    A file that exists and that [joblib.load] cannot read is not covered. *)
Definition filesystem : Type := string -> option model.

(** ** Slots *)

(** The attributes set by [DictionarySlot.__init__]. [values_order] is the
    constructor's argument of that name; the source reads it only in
    [ClassifierSlot.__init__], and it is kept here so that properties of
    loaded slots can refer to it. The [filters] registry plays no part in
    resolution and is left out. *)
Record attrs : Type := Attrs {
  id : string;
  ask_sentence : string;
  gen_dict : dict;
  nongen_dict : dict;
  values_order : list string
}.

(** [self.threshold = 84] in [DictionarySlot.__init__], never reassigned. *)
Definition threshold : Z := 84.

Inductive slot : Type :=
| DictionarySlot (self : attrs)
| CurrencySlot (self : attrs) (supported_slots : list string)
| ClassifierSlot (self : attrs) (true_ : string) (model_ : option model)
| CompositionalSlot (self : attrs) (children : list slot)
| TomitaSlot (self : attrs)
| GeoSlot (self : attrs).

Definition slot_attrs (s : slot) : attrs :=
  match s with
  | DictionarySlot a | CurrencySlot a _ | ClassifierSlot a _ _
  | CompositionalSlot a _ | TomitaSlot a | GeoSlot a => a
  end.

Definition slot_id (s : slot) : string := id (slot_attrs s).

Definition is_ClassifierSlot (s : slot) : bool :=
  match s with ClassifierSlot _ _ _ => true | _ => false end.

(** ** Dictionary resolution *)

Section Resolution.

Variable partial_ratio : scorer.
Variable get_json : recognizer.

(** [' '.join(w['_text'] for w in text)] *)
Definition str_text (text : list token) : string :=
  PyStr.join " " (map _text text).

(** [DictionarySlot._normal_value] *)
Definition _normal_value (self : attrs) (text : string) : string :=
  dict_get_default (gen_dict self) text
    (dict_get_default (nongen_dict self) text "").

(** [chain(self.gen_dict, self.nongen_dict)] *)
Definition scan_keys (self : attrs) : list string :=
  dict_keys (gen_dict self) ++ dict_keys (nongen_dict self).

(** One iteration of the loop of [_infer] on the pair
    [(best_score, best_match)]. *)
Definition scan_step (probe : string) (best : Z * option string) (v : string)
  : Z * option string :=
  let score := partial_ratio v probe in
  if fst best <? score then (score, Some v) else best.

Definition scan (probe : string) (keys : list string) (best : Z * option string)
  : Z * option string :=
  fold_left (scan_step probe) keys best.

(** [self._normal_value(best_match)] where [best_match] may still be
    [None], which is a key of neither dictionary. *)
Definition normal_value_of_match (self : attrs) (best_match : option string) : string :=
  match best_match with
  | Some v => _normal_value self v
  | None => ""
  end.

(** [DictionarySlot._infer] *)
Definition _infer (self : attrs) (text : list token) : option string :=
  let '(best_score, best_match) := scan (str_text text) (scan_keys self) (0, None) in
  if threshold <=? best_score
  then Some (normal_value_of_match self best_match)
  else None.

(** [TomitaSlot._infer]: [self.tomita.get_json(...) or None] *)
Definition TomitaSlot_infer (text : list token) : option string :=
  let out := get_json (str_text text) in
  if String.eqb out "" then None else Some out.

(** [self._infer(text)], dispatched on the class of [self]. *)
Definition slot_infer (s : slot) (text : list token) : option string :=
  match s with
  | TomitaSlot _ => TomitaSlot_infer text
  | _ => _infer (slot_attrs s) text
  end.

Definition no_model : exn := NotImplementedError "No model specified!".

(** The loop shared by the two methods of [CompositionalSlot]: the first
    child result that is not [None]; an exception of a child leaves the
    loop at once. *)
Fixpoint first_resolved (rs : list (result (option string))) : result (option string) :=
  match rs with
  | [] => Ok None
  | Ok None :: rest => first_resolved rest
  | r :: _ => r
  end.

(** [infer_from_compositional_request], dispatched on the class. *)
Fixpoint infer_from_compositional_request (s : slot) (text : list token)
  : result (option string) :=
  match s with
  | ClassifierSlot _ true_ model_ =>
      match model_ with
      | None => Raise no_model
      | Some m =>
          label <- m text ;;
          Ok (if label : bool then Some true_ else None)
      end
  | CompositionalSlot _ children =>
      (fix loop (cs : list slot) : result (option string) :=
         match cs with
         | [] => Ok None
         | c :: rest =>
             match infer_from_compositional_request c text with
             | Ok None => loop rest
             | rv => rv
             end
         end) children
  | _ => Ok (slot_infer s text)
  end.

(** [infer_from_single_slot], dispatched on the class: only
    [CompositionalSlot] overrides the method of [DictionarySlot]. *)
Fixpoint infer_from_single_slot (s : slot) (text : list token)
  : result (option string) :=
  match s with
  | CompositionalSlot _ children =>
      (fix loop (cs : list slot) : result (option string) :=
         match cs with
         | [] => Ok None
         | c :: rest =>
             match infer_from_single_slot c text with
             | Ok None => loop rest
             | rv => rv
             end
         end) children
  | _ => Ok (slot_infer s text)
  end.

(** [ClassifierSlot.infer_from_compositional_batch]; the labels are those
    of the model on each text. *)
Fixpoint predict_all (m : model) (list_texts : list (list token)) : result (list bool) :=
  match list_texts with
  | [] => Ok []
  | t :: rest =>
      l <- m t ;;
      ls <- predict_all m rest ;;
      Ok (l :: ls)
  end.

Definition infer_from_compositional_batch (model_ : option model)
    (list_texts : list (list token)) : result (list bool) :=
  match model_ with
  | None => Raise no_model
  | Some m => predict_all m list_texts
  end.

End Resolution.

(** [ClassifierSlot.load_model] *)
Definition load_model (fs : filesystem) (s : slot) (model_path : string) : result slot :=
  match fs model_path with
  | None => Raise (Exception_ ("Model path: '" ++ model_path ++ "' doesnt exist"))
  | Some m =>
      match s with
      | ClassifierSlot a t _ => Ok (ClassifierSlot a t (Some m))
      | _ => Ok s
      end
  end.

(** ** Constructors *)

(** [DictionarySlot.__init__] (the other classes call it first). *)
Definition DictionarySlot_init (slot_id ask : string) (generative_dict nongenerative_dict : dict)
    (order : list string) : attrs :=
  {| id := slot_id; ask_sentence := ask; gen_dict := generative_dict;
     nongen_dict := nongenerative_dict; values_order := order |}.

(** [{s.id: s for s in prev_created_slots}[name]]: of several slots with one
    id the comprehension keeps the last. *)
Definition slotmap_lookup (prev_created_slots : list slot) (name : string) : result slot :=
  match find (fun s => String.eqb (slot_id s) name) (rev prev_created_slots) with
  | Some s => Ok s
  | None => Raise (KeyError name)
  end.

Fixpoint lookup_children (prev_created_slots : list slot) (args : list string)
  : result (list slot) :=
  match args with
  | [] => Ok []
  | name :: rest =>
      c <- slotmap_lookup prev_created_slots name ;;
      cs <- lookup_children prev_created_slots rest ;;
      Ok (c :: cs)
  end.

(** [ClassifierSlot.__init__]: [values_order[0]] raises on an empty list. *)
Definition ClassifierSlot_init (a : attrs) : result slot :=
  match values_order a with
  | [] => Raise IndexError
  | t :: _ => Ok (ClassifierSlot a t None)
  end.

(** [CompositionalSlot.__init__]: the children are the slots that the extra
    positional arguments name. *)
Definition CompositionalSlot_init (a : attrs) (prev_created_slots : list slot)
    (args : list string) : result slot :=
  children <- lookup_children prev_created_slots args ;;
  Ok (CompositionalSlot a children).

(** [getattr(sys.modules[__name__], slot_class)(...)]: the class named by the
    header, called on the positional arguments given. The six slot classes
    of the module are covered. For any other name the source raises
    [AttributeError] when the module binds no such name, raises [TypeError]
    when what the name is bound to cannot be called on these arguments, and
    otherwise appends an object that is no slot; here every such name raises
    [AttributeError], so a load that returns is a load of slot classes
    only. *)
Definition construct (slot_class : string) (a : attrs) (prev_created_slots : list slot)
    (args : list string) : result slot :=
  if String.eqb slot_class "DictionarySlot" then Ok (DictionarySlot a)
  else if String.eqb slot_class "CurrencySlot" then Ok (CurrencySlot a ["rub"; "eur"; "usd"])
  else if String.eqb slot_class "ClassifierSlot" then ClassifierSlot_init a
  else if String.eqb slot_class "CompositionalSlot" then CompositionalSlot_init a prev_created_slots args
  else if String.eqb slot_class "TomitaSlot" then Ok (TomitaSlot a)
  else if String.eqb slot_class "GeoSlot" then Ok (GeoSlot a)
  else Raise (AttributeError slot_class).

(** ** Schema loader *)

(** The local variables of [read_slots_from_tsv]. [args] is bound by the
    header row and read nowhere. *)
Record loader : Type := Loader {
  slot_name : option string;
  slot_class : string;
  args : list string;
  info_question : string;
  normal_names_order : list string;
  generative_slot_values : dict;
  nongenerative_slot_values : dict;
  result_slots : list slot
}.

Definition loader_init : loader :=
  {| slot_name := None; slot_class := ""; args := []; info_question := "";
     normal_names_order := []; generative_slot_values := [];
     nongenerative_slot_values := []; result_slots := [] |}.

(** [l[i]] *)
Definition getitem {A : Type} (l : list A) (i : nat) : result A :=
  match nth_error l i with
  | Some x => Ok x
  | None => Raise IndexError
  end.

Definition dquote : string := String (ascii_of_nat 34) EmptyString.
Definition comma : ascii := ascii_of_nat 44.
Definition dot : ascii := ascii_of_nat 46.

(** The synonyms of a cell: none for an empty cell, else the cell without
    its quotation marks, cut at the commas. *)
Definition split_syns (cell : string) : list string :=
  if String.eqb cell "" then []
  else PyStr.split_char comma
         (PyStr.replace dquote ""
            (PyStr.replace "”" ""
               (PyStr.replace "“" ""
                  (PyStr.replace ", " "," cell)))).

(** [set(a).intersection(set(b))] is not empty. *)
Definition intersects (a b : list string) : bool :=
  existsb (fun x => existsb (String.eqb x) b) a.

Section Loader.

Variable feed : tokenizer.

(** The local function [pipe]. *)
Definition pipe (text : string) : string :=
  PyStr.join " " (map _text (feed text)).

(** [for s in syns: d[pipe(s)] = normal_name] *)
Definition set_all (d : dict) (syns : list string) (normal_name : string) : dict :=
  fold_left (fun acc s => dict_set acc (pipe s) normal_name) syns d.

(** The call [SlotClass(slot_name, info_question, generative_slot_values,
    nongenerative_slot_values, normal_names_order, result_slots)] and the
    [append] that follows: no extra positional argument is passed. *)
Definition make_slot (st : loader) (name : string) : result (list slot) :=
  slot <- construct (slot_class st)
            (DictionarySlot_init name (info_question st) (generative_slot_values st)
               (nongenerative_slot_values st) (normal_names_order st))
            (result_slots st) [] ;;
  Ok (result_slots st ++ [slot])%list.

(** First branch of the loop: the header row of a block. *)
Definition header_row (st : loader) (row : list string) : result loader :=
  cell0 <- getitem row 0 ;;
  word <- getitem (PyStr.split_ws cell0) 0 ;;
  match PyStr.split_char dot word with
  | name :: class :: extra =>
      cell1 <- getitem row 1 ;;
      Ok {| slot_name := Some name; slot_class := class; args := extra;
            info_question := PyStr.strip cell1;
            normal_names_order := [];
            generative_slot_values := generative_slot_values st;
            nongenerative_slot_values := nongenerative_slot_values st;
            result_slots := result_slots st |}
  | _ => Raise ValueError
  end.

(** Second branch: a value row of one to three cells. *)
Definition value_row (st : loader) (row : list string) : result loader :=
  cells <- match row with
           | [n] => Ok (n, "", "")
           | [n; g] => Ok (n, g, "")
           | [n; g; ng] => Ok (n, g, ng)
           | _ => Raise (Exception_ "")
           end ;;
  let '(n, g, ng) := cells in
  let normal_name := pipe n in
  let generative_syns := split_syns g in
  let nongenerative_syns := split_syns ng in
  checked <- match nongenerative_syns, generative_syns with
             | _ :: _, _ :: _ =>
                 if intersects nongenerative_syns generative_syns
                 then Raise AssertionError
                 else Ok tt
             | _, _ => Ok tt
             end ;;
  Ok {| slot_name := slot_name st; slot_class := slot_class st; args := args st;
        info_question := info_question st;
        normal_names_order := (normal_names_order st ++ [normal_name])%list;
        generative_slot_values :=
          set_all (dict_set (generative_slot_values st) normal_name normal_name)
            generative_syns normal_name;
        nongenerative_slot_values :=
          set_all (nongenerative_slot_values st) nongenerative_syns normal_name;
        result_slots := result_slots st |}.

(** Third branch: a blank row closes the block. *)
Definition blank_row (st : loader) (name : string) : result loader :=
  slots <- make_slot st name ;;
  Ok {| slot_name := None; slot_class := slot_class st; args := args st;
        info_question := info_question st;
        normal_names_order := normal_names_order st;
        generative_slot_values := [];
        nongenerative_slot_values := [];
        result_slots := slots |}.

(** The body of [for row in csv_rows]. *)
Definition loader_step (st : loader) (row : list string) : result loader :=
  match slot_name st with
  | None => header_row st row
  | Some name =>
      if String.eqb (PyStr.concat_all row) "" then blank_row st name
      else value_row st row
  end.

Fixpoint loader_run (st : loader) (rows : list (list string)) : result loader :=
  match rows with
  | [] => Ok st
  | row :: rest =>
      st' <- loader_step st row ;;
      loader_run st' rest
  end.

(** After the loop: [if slot_name:] is false for [None] and for ['']. *)
Definition loader_flush (st : loader) : result (list slot) :=
  match slot_name st with
  | None => Ok (result_slots st)
  | Some name =>
      if String.eqb name "" then Ok (result_slots st)
      else make_slot st name
  end.

(** [read_slots_from_tsv]; [rows] are the rows that [csv.reader] yields
    for the file. *)
Definition read_slots_from_tsv (rows : list (list string)) : result (list slot) :=
  st <- loader_run loader_init rows ;;
  loader_flush st.

(** The loop of [read_slots_serialized]. *)
Fixpoint load_models (fs : filesystem) (folder : string) (slots_array : list slot)
  : result (list slot) :=
  match slots_array with
  | [] => Ok []
  | s :: rest =>
      let name := os_path_join folder (slot_id s ++ ".model") in
      s' <- (if is_ClassifierSlot s then
               match fs name with
               | None => Raise (Exception_ (name ++ " does not exist"))
               | Some _ => load_model fs s name
               end
             else Ok s) ;;
      rest' <- load_models fs folder rest ;;
      Ok (s' :: rest')
  end.

(** [read_slots_serialized] *)
Definition read_slots_serialized (fs : filesystem) (folder : string)
    (rows : list (list string)) : result (list slot) :=
  slots_array <- read_slots_from_tsv rows ;;
  load_models fs folder slots_array.

End Loader.

(** ** Concrete collaborators

    Instances of the collaborators on which the definitions can be run. *)

(** A tokenizer that cuts at white space. *)
Definition ws_tokenizer : tokenizer := fun s => map Token (PyStr.split_ws s).

Definition occurs_in (a b : string) : bool :=
  match String.index 0 a b with
  | Some _ => true
  | None => false
  end.

(** A scorer with the values 0 and 100: 100 when both strings are not empty
    and the shorter one occurs in the longer one (pairs to which
    [fuzz.partial_ratio] gives 100 as well), 0 for every other pair. *)
Definition containment_ratio : scorer := fun s1 s2 =>
  if (String.eqb s1 "" || String.eqb s2 "")%bool then 0
  else if Nat.leb (length s1) (length s2)
       then (if occurs_in s1 s2 then 100 else 0)
       else (if occurs_in s2 s1 then 100 else 0).

(** A recognizer that finds nothing. *)
Definition silent_recognizer : recognizer := fun _ => "".

(** A directory without any file. *)
Definition empty_fs : filesystem := fun _ => None.

(** Slots and attributes on which the properties below are exercised. *)

Definition currency_attrs : attrs :=
  DictionarySlot_init "cur" "Which currency?"
    [("rub", "rub"); ("eur", "eur"); ("usd", "usd"); ("dollars", "usd")] []
    ["rub"; "eur"; "usd"].

Definition payment_attrs : attrs :=
  DictionarySlot_init "method" "How?"
    [("card", "card"); ("credit", "credit"); ("credit card", "credit")] []
    ["card"; "credit"].

(** Closes a goal on closed terms by evaluation. *)
Ltac by_evaluation :=
  vm_compute; first [reflexivity | discriminate | tauto | intuition discriminate].

(** Splits a membership in a literal list into its cases. *)
Ltac each_member H :=
  simpl in H;
  repeat match type of H with
         | _ \/ _ => destruct H as [H|H]
         end;
  try contradiction; try subst.

(** The slots that resolve through [DictionarySlot._infer] on both entry
    points. *)
Definition uses_dictionary_strategy (s : slot) : bool :=
  match s with
  | DictionarySlot _ | CurrencySlot _ _ | GeoSlot _ => true
  | _ => false
  end.

Definition repeat_attrs : attrs :=
  DictionarySlot_init "repeat" "Again?" [("yes", "yes")] [] ["yes"].

Definition plastic_attrs : attrs :=
  DictionarySlot_init "plastic" "Which card?" [("card", "plastic")] [] ["plastic"].

Definition method_attrs : attrs := DictionarySlot_init "pay" "How?" [] [] [].

(** The canonical names [order] and the two dictionaries of a block agree:
    every canonical name is a key of the generative dictionary, and both
    dictionaries map into the canonical names. *)
Definition canonical_closed (g ng : dict) (order : list string) : Prop :=
  (forall n, In n order -> In n (dict_keys g))
  /\ (forall k v, In (k, v) g -> In v order)
  /\ (forall k v, In (k, v) ng -> In v order).

(** What holds of the loader's variables between two rows: outside a block
    both dictionaries are empty, inside a block they agree with the names. *)
Definition block_invariant (st : loader) : Prop :=
  match slot_name st with
  | None => generative_slot_values st = [] /\ nongenerative_slot_values st = []
  | Some _ =>
      canonical_closed (generative_slot_values st) (nongenerative_slot_values st)
        (normal_names_order st)
  end.

(** ** Filters

    [self.filters]: the registry of named predicates over a candidate value
    and a context value, as the constructors of the classes fill it. The
    registry of a slot is determined by its class, by [supported_slots] and
    by [self.true]. *)

Definition filter_fn : Type := string -> string -> bool.

(** [x in l] *)
Definition is_in (x : string) (l : list string) : bool := existsb (String.eqb x) l.

(** The registry that [DictionarySlot.__init__] builds. *)
Definition base_filters : list (string * filter_fn) :=
  [("any", fun _ _ => true);
   ("eq", fun x y => String.eqb x y);
   ("not_eq", fun x y => negb (String.eqb x y))].

Definition filters (s : slot) : list (string * filter_fn) :=
  match s with
  | CurrencySlot _ supported_slots =>
      (base_filters
       ++ [("supported_currency", fun x _ => is_in x supported_slots);
           ("not_supported_currency", fun x _ => negb (is_in x supported_slots))])%list
  | ClassifierSlot _ true_ _ =>
      (base_filters
       ++ [("true", fun x _ => String.eqb x true_);
           ("false", fun x _ => negb (String.eqb x true_))])%list
  | _ => base_filters
  end.

(** [slot.filters[name]] *)
Definition get_filter (s : slot) (name : string) : result filter_fn :=
  match find (fun entry => String.eqb (fst entry) name) (filters s) with
  | Some entry => Ok (snd entry)
  | None => Raise (KeyError name)
  end.

(** ** Auxiliary notions for the properties *)

(** No classifier slot occurs in [s], at any depth. *)
Fixpoint classifier_free (s : slot) : bool :=
  match s with
  | ClassifierSlot _ _ _ => false
  | CompositionalSlot _ children => forallb classifier_free children
  | _ => true
  end.

(** How [read_slots_serialized] leaves a slot [s] of the parsed schema: a
    classifier slot carries the model of its artifact, any other slot is as
    it was. *)
Definition model_attached (fs : filesystem) (folder : string) (s s' : slot) : Prop :=
  match s with
  | ClassifierSlot a t _ =>
      exists m,
        fs (os_path_join folder (id a ++ ".model")) = Some m
        /\ s' = ClassifierSlot a t (Some m)
  | _ => s' = s
  end.

(** What the loader's constructor call leaves in a slot: a classifier slot
    has no model and its true label heads the canonical names; a
    compositional slot has no children. *)
Definition freshly_constructed (s : slot) : Prop :=
  match s with
  | ClassifierSlot a t m => m = None /\ exists rest, values_order a = t :: rest
  | CompositionalSlot _ children => children = []
  | _ => True
  end.

(** Induction on slots, with the property at hand for every child of a
    compositional slot. *)
Fixpoint slot_induction (P : slot -> Prop)
    (HD : forall a, P (DictionarySlot a))
    (HCu : forall a l, P (CurrencySlot a l))
    (HCl : forall a t m, P (ClassifierSlot a t m))
    (HCo : forall a children, Forall P children -> P (CompositionalSlot a children))
    (HT : forall a, P (TomitaSlot a))
    (HG : forall a, P (GeoSlot a))
    (s : slot) : P s :=
  match s with
  | DictionarySlot a => HD a
  | CurrencySlot a l => HCu a l
  | ClassifierSlot a t m => HCl a t m
  | CompositionalSlot a children =>
      HCo a children
        ((fix all (cs : list slot) : Forall P cs :=
            match cs with
            | [] => Forall_nil P
            | c :: rest =>
                Forall_cons c (slot_induction HD HCu HCl HCo HT HG c) (all rest)
            end) children)
  | TomitaSlot a => HT a
  | GeoSlot a => HG a
  end.

(** A model that labels every text as true, and a folder that holds it as
    the artifact of the slot [repeat]. *)
Definition approving_model : model := fun _ => Ok true.

Definition repeat_fs : filesystem := fun path =>
  if String.eqb path "art/repeat.model" then Some approving_model else None.

(** ** Dialog turns (dialog.py)

    [Dialog.generate_response]. The dialog object keeps the counter
    [impatience]; the NLU model, the policy model, the FAQ and chit-chat
    services, the tokenizer and the evaluation of a geo message are
    collaborators, each called at most once in a turn and taken as what it
    answers in that turn. The argument of a geo message is evaluated by
    [eval] in the frame of the method, where [self] is in scope: the
    evaluation gives a value ([eval_geo]) and may leave the attributes of
    the dialog object changed ([eval_self]). Logging is left out. *)

Record Dialog : Type := {
  debug : bool;
  patience : Z;
  impatience : Z
}.

(** [Dialog.__init__]: [debug=False], [patience=3] by default. *)
Definition Dialog_init (debug_ : bool) (patience_ : Z) : Dialog :=
  {| debug := debug_; patience := patience_; impatience := 0 |}.

(** What a call inside [try: ... except Exception as e:] gives: a value,
    or the exception, kept as [str(e)]. *)
Inductive attempt (A : Type) : Type :=
| Returned (a : A)
| Caught (str_e : string).

Arguments Returned {A} a.
Arguments Caught {A} str_e.

Definition newline : string := String (ascii_of_nat 10) EmptyString.

(** [s.split(' ', 1)]: cut at the first space, if there is one. *)
Fixpoint split_first_space (s : string) : list string :=
  match s with
  | EmptyString => [""]
  | String a rest =>
      if Ascii.eqb a (ascii_of_nat 32) then [""; rest]
      else match split_first_space rest with
           | w :: ws => String a w :: ws
           | [] => [String a ""]
           end
  end.

(** Truth value of an answer that is [None] or a string. *)
Definition answered (faq_answer : option string) : bool :=
  match faq_answer with
  | Some a => negb (String.eqb a "")
  | None => false
  end.

Section DialogTurn.

Variable NLU : Type.
Variable Geo : Type.
Variable Expect : Type.

(** The first argument of [nlu_model.forward]: tokens, or the value of a
    geo message. *)
Inductive nlu_input : Type :=
| TextInput (tokens : list token)
| GeoInput (value : Geo).

Record collaborators : Type := {
  pipeline_feed : tokenizer;
  eval_geo : string -> result Geo;
  eval_self : Dialog -> string -> Dialog;
  nlu_forward : nlu_input -> string -> attempt NLU;
  nlu_slots : NLU -> bool;
  nlu_intent : NLU -> option string;
  faq : string -> result (option string * string);
  chat : string -> result string;
  policy_forward : NLU -> attempt (list string * Expect);
  repr_nlu : NLU -> string;
  repr_policy : string;
  repr_faq : option string -> string -> string
}.

(** What a turn leaves: the response, the dialog object, and the
    expectation passed to [nlu_model.set_expectation], if it was called. *)
Record turn : Type := {
  response : list string;
  dialog : Dialog;
  expectation : option Expect
}.

(** [not nlu_result['slots'] and nlu_result.get('intent', 'no_intent')
    == 'no_intent' and not faq_answer] *)
Definition uninformative (c : collaborators) (nlu_result : NLU)
    (faq_answer : option string) : bool :=
  (negb (nlu_slots c nlu_result)
   && match nlu_intent c nlu_result with
      | Some i => String.eqb i "no_intent"
      | None => true
      end
   && negb (answered faq_answer))%bool.

Definition debug_message (c : collaborators) (nlu_result : NLU)
    (faq_answer : option string) (faq_response chat_response : string) : string :=
  "DEBUG" ++ newline ++ "nlu: " ++ repr_nlu c nlu_result ++ newline ++ newline
  ++ "policy: " ++ repr_policy c ++ newline ++ newline
  ++ "faq: " ++ repr_faq c faq_answer faq_response ++ newline ++ newline
  ++ "chit-chat: " ++ chat_response.

(** [if self.debug: response.insert(0, debug_message)] *)
Definition with_debug (self : Dialog) (message : string) (resp : list string) : list string :=
  if debug self then message :: resp else resp.

(** [Dialog.generate_response] *)
Definition generate_response (c : collaborators) (self : Dialog)
    (client_utterance : string) : result turn :=
  input <- (if PyStr.startswith "__geo__" client_utterance
            then
              arg <- getitem (split_first_space client_utterance) 1 ;;
              value <- eval_geo c arg ;;
              Ok (GeoInput value, "geo", eval_self c self arg)
            else Ok (TextInput (pipeline_feed c client_utterance), "text", self)) ;;
  let self := snd input in
  match nlu_forward c (fst (fst input)) (snd (fst input)) with
  | Caught e =>
      Ok {| response := ["NLU ERROR: " ++ e]; dialog := self; expectation := None |}
  | Returned nlu_result =>
      faq_result <- faq c client_utterance ;;
      chat_response <- chat c client_utterance ;;
      let faq_answer := fst faq_result in
      let faq_response := snd faq_result in
      let self' :=
        {| debug := debug self; patience := patience self;
           impatience := if uninformative c nlu_result faq_answer
                         then impatience self + 1 else 0 |} in
      let message := debug_message c nlu_result faq_answer faq_response chat_response in
      if answered faq_answer then
        Ok {| response :=
                with_debug self message
                  ["FAQ" ++ newline ++ newline
                   ++ match faq_answer with Some a => a | None => "" end];
              dialog := self'; expectation := None |}
      else if impatience self' <? patience self' then
        match policy_forward c nlu_result with
        | Caught e =>
            Ok {| response := ["ERROR: " ++ e]; dialog := self'; expectation := None |}
        | Returned (resp, expect) =>
            Ok {| response :=
                    with_debug self message
                      (map (fun r => "GOAL-ORIENTED" ++ newline ++ r) resp);
                  dialog := self'; expectation := Some expect |}
        end
      else
        Ok {| response := with_debug self message ["CHIT-CHAT" ++ newline ++ chat_response];
              dialog := self'; expectation := None |}
  end.

(** Successive turns of one dialog, each with the answers that the
    collaborators give in it. *)
Fixpoint converse (self : Dialog) (turns : list (collaborators * string))
  : result (list (list string) * Dialog) :=
  match turns with
  | [] => Ok ([], self)
  | (c, client_utterance) :: rest =>
      t <- generate_response c self client_utterance ;;
      later <- converse (dialog t) rest ;;
      Ok (response t :: fst later, snd later)
  end.

End DialogTurn.

(** Collaborators on which a turn can be run: the NLU result is the pair of
    what the two tests of the turn read, nothing is found in any utterance,
    the FAQ answers only the utterance [hours], and the policy asks for the
    currency. *)
Definition quiet_collaborators : collaborators (bool * option string) unit string :=
  {| pipeline_feed := ws_tokenizer;
     eval_geo := fun _ => Ok tt;
     eval_self := fun self _ => self;
     nlu_forward := fun _ _ => Returned (false, None);
     nlu_slots := fst;
     nlu_intent := snd;
     faq := fun u => Ok (if String.eqb u "hours" then Some "9 to 5" else None, "");
     chat := fun _ => Ok "hm";
     policy_forward := fun _ => Returned (["Which currency?"], "cur");
     repr_nlu := fun _ => "";
     repr_policy := "";
     repr_faq := fun _ _ => "" |}.

(** Collaborators whose NLU model raises and whose services raise as well. *)
Definition broken_collaborators : collaborators (bool * option string) unit string :=
  {| pipeline_feed := ws_tokenizer;
     eval_geo := fun _ => Raise ValueError;
     eval_self := fun self _ => self;
     nlu_forward := fun _ _ => Caught "down";
     nlu_slots := fst;
     nlu_intent := snd;
     faq := fun _ => Raise (Exception_ "timeout");
     chat := fun _ => Raise (Exception_ "timeout");
     policy_forward := fun _ => Caught "down";
     repr_nlu := fun _ => "";
     repr_policy := "";
     repr_faq := fun _ _ => "" |}.

(** A scorer with the guards that [fuzz.partial_ratio] applies before it
    compares: equal strings score 100, even if both are empty; any other
    pair scores as under [containment_ratio], 0 when one string is empty. *)
Definition guarded_ratio : scorer := fun s1 s2 =>
  if String.eqb s1 s2 then 100 else containment_ratio s1 s2.

(** The attributes that the block with the value row [usd] and the
    generative cell [dollars,] gives: the cell has an empty synonym after
    its comma. *)
Definition trailing_comma_attrs : attrs :=
  DictionarySlot_init "cur" "Which currency?"
    [("usd", "usd"); ("dollars", "usd"); ("", "usd")] [] ["usd"].

(** U+00A0, the no-break space, in UTF-8. *)
Definition no_break_space : string :=
  String (ascii_of_nat 194) (String (ascii_of_nat 160) EmptyString).

(** * Properties *)

Local Open Scope list_scope.

(** ** Dictionaries *)

Lemma dict_get_In : forall (d : dict) k v, dict_get d k = Some v -> In (k, v) d.
Proof.
  induction d as [|[k' v'] d IH]; simpl; intros k v H.
  - discriminate.
  - destruct (String.eqb_spec k' k) as [->|Hne].
    + injection H as ->. now left.
    + right. now apply IH.
Qed.

Lemma dict_get_key : forall (d : dict) k,
  In k (dict_keys d) -> exists v, dict_get d k = Some v.
Proof.
  induction d as [|[k' v'] d IH]; simpl; intros k H.
  - contradiction.
  - destruct (String.eqb_spec k' k) as [->|Hne].
    + now exists v'.
    + destruct H as [H|H]; [contradiction|]. now apply IH.
Qed.

Lemma dict_set_In : forall (d : dict) k v k' v',
  In (k', v') (dict_set d k v) -> In (k', v') d \/ (k' = k /\ v' = v).
Proof.
  induction d as [|[k0 v0] d IH]; simpl; intros k v k' v' H.
  - destruct H as [H|[]]. injection H as <- <-. now right.
  - destruct (String.eqb_spec k0 k) as [->|Hne]; simpl in H.
    + destruct H as [H|H].
      * injection H as <- <-. now right.
      * left. now right.
    + destruct H as [H|H].
      * left. now left.
      * destruct (IH _ _ _ _ H) as [H'|H']; [left; now right | now right].
Qed.

Lemma dict_set_key_new : forall (d : dict) k v, In k (dict_keys (dict_set d k v)).
Proof.
  induction d as [|[k0 v0] d IH]; simpl; intros k v.
  - now left.
  - destruct (String.eqb_spec k0 k) as [->|Hne]; simpl; [now left | right; apply IH].
Qed.

Lemma dict_set_key_old : forall (d : dict) k v k',
  In k' (dict_keys d) -> In k' (dict_keys (dict_set d k v)).
Proof.
  induction d as [|[k0 v0] d IH]; simpl; intros k v k' H.
  - contradiction.
  - destruct (String.eqb_spec k0 k) as [->|Hne]; simpl.
    + destruct H as [H|H]; [now left | now right].
    + destruct H as [H|H]; [now left | right; now apply IH].
Qed.

(** ** The scan of [_infer] *)

Section ScanFacts.

Variable partial_ratio : scorer.
Variable probe : string.

Let score (k : string) : Z := partial_ratio k probe.

Lemma scan_app : forall pre post best,
  scan partial_ratio probe (pre ++ post) best
  = scan partial_ratio probe post (scan partial_ratio probe pre best).
Proof. intros. unfold scan. apply fold_left_app. Qed.

(** Keys that do not beat the running best leave it as it is. *)
Lemma scan_keep : forall keys bs bm,
  (forall k, In k keys -> score k <= bs) ->
  scan partial_ratio probe keys (bs, bm) = (bs, bm).
Proof.
  induction keys as [|v keys IH]; intros bs bm H; [reflexivity|].
  unfold scan in *. simpl. unfold scan_step at 2. simpl.
  assert (Hv : score v <= bs) by (apply H; now left).
  unfold score in Hv.
  destruct (Z.ltb_spec bs (partial_ratio v probe)); [lia|].
  apply IH. intros k Hk. apply H. now right.
Qed.

(** Keys below a bound keep the running best below it. *)
Lemma scan_below : forall keys bs bm t,
  bs < t ->
  (forall k, In k keys -> score k < t) ->
  fst (scan partial_ratio probe keys (bs, bm)) < t.
Proof.
  induction keys as [|v keys IH]; intros bs bm t Hbs H; [exact Hbs|].
  unfold scan in *. simpl. unfold scan_step at 2. simpl.
  assert (Hv : score v < t) by (apply H; now left).
  unfold score in Hv.
  destruct (Z.ltb_spec bs (partial_ratio v probe)).
  - apply IH; [exact Hv|]. intros k Hk. apply H. now right.
  - apply IH; [exact Hbs|]. intros k Hk. apply H. now right.
Qed.

(** What the scan leaves: either nothing beat the initial best, or the
    best match is the first key that reaches the greatest score. *)
Lemma scan_result : forall keys bs bm,
  (scan partial_ratio probe keys (bs, bm) = (bs, bm)
   /\ forall k, In k keys -> score k <= bs)
  \/ (exists pre k post,
        keys = pre ++ k :: post
        /\ scan partial_ratio probe keys (bs, bm) = (score k, Some k)
        /\ bs < score k
        /\ (forall k', In k' pre -> score k' < score k)
        /\ (forall k', In k' post -> score k' <= score k)).
Proof.
  induction keys as [|v keys IH]; intros bs bm.
  - left. split; [reflexivity|]. intros k [].
  - unfold scan. simpl. fold (scan partial_ratio probe keys).
    unfold scan_step. simpl. fold (score v).
    destruct (Z.ltb_spec bs (score v)) as [Hlt|Hge].
    + right. destruct (IH (score v) (Some v)) as [[Heq Hle]|(pre & k & post & Hk & Heq & Hlt' & Hpre & Hpost)].
      * exists [], v, keys. repeat split; auto. intros k' [].
      * exists (v :: pre), k, post. subst keys. repeat split; auto; try lia.
        intros k' [<-|Hk']; [lia | now apply Hpre].
    + destruct (IH bs bm) as [[Heq Hle]|(pre & k & post & Hk & Heq & Hlt' & Hpre & Hpost)].
      * left. split; [exact Heq|]. intros k [<-|Hk]; [lia | now apply Hle].
      * right. exists (v :: pre), k, post. subst keys. repeat split; auto.
        intros k' [<-|Hk']; [lia | now apply Hpre].
Qed.

(** Conversely, the first key that reaches the greatest score is the one
    the scan leaves. *)
Lemma scan_first_best : forall pre k post bs bm,
  bs < score k ->
  (forall k', In k' pre -> score k' < score k) ->
  (forall k', In k' post -> score k' <= score k) ->
  scan partial_ratio probe (pre ++ k :: post) (bs, bm) = (score k, Some k).
Proof.
  intros pre k post bs bm Hbs Hpre Hpost.
  rewrite scan_app.
  pose proof (scan_below pre bm Hbs Hpre) as Hb.
  destruct (scan partial_ratio probe pre (bs, bm)) as [s1 m1]. simpl in Hb.
  unfold scan. simpl. fold (scan partial_ratio probe post).
  unfold scan_step. simpl. fold (score k).
  destruct (Z.ltb_spec s1 (score k)); [|lia].
  now apply scan_keep.
Qed.

End ScanFacts.

(** ** Base dictionary resolution *)

Section DictionaryResolution.

Variable partial_ratio : scorer.
Variable self : attrs.

Lemma infer_of_scan : forall text s k,
  scan partial_ratio (str_text text) (scan_keys self) (0, None) = (s, Some k) ->
  threshold <= s ->
  _infer partial_ratio self text = Some (_normal_value self k).
Proof.
  intros text s k Hscan Hs. unfold _infer. rewrite Hscan.
  destruct (Z.leb_spec threshold s); [reflexivity | lia].
Qed.

Lemma infer_below : forall text,
  (forall k, In k (scan_keys self) -> partial_ratio k (str_text text) < threshold) ->
  _infer partial_ratio self text = None.
Proof.
  intros text H. unfold _infer.
  pose proof (@scan_below partial_ratio (str_text text) (scan_keys self) 0 None threshold) as Hb.
  destruct (scan partial_ratio (str_text text) (scan_keys self) (0, None)) as [s m].
  simpl in Hb. destruct (Z.leb_spec threshold s) as [Hle|]; [|reflexivity].
  assert (s < threshold) by (apply Hb; [reflexivity | exact H]). lia.
Qed.

(** Every scan ends in one of two ways. *)
Lemma infer_cases : forall text,
  (_infer partial_ratio self text = None
   /\ forall k, In k (scan_keys self) -> partial_ratio k (str_text text) < threshold)
  \/ (exists pre k post,
        scan_keys self = pre ++ k :: post
        /\ (forall k', In k' pre ->
              partial_ratio k' (str_text text) < partial_ratio k (str_text text))
        /\ (forall k', In k' post ->
              partial_ratio k' (str_text text) <= partial_ratio k (str_text text))
        /\ threshold <= partial_ratio k (str_text text)
        /\ _infer partial_ratio self text = Some (_normal_value self k)).
Proof.
  intros text.
  destruct (scan_result partial_ratio (str_text text) (scan_keys self) 0 None)
    as [[Heq Hle]|(pre & k & post & Hk & Heq & Hlt & Hpre & Hpost)].
  - left. assert (Hall : forall k, In k (scan_keys self) ->
                         partial_ratio k (str_text text) < threshold).
    { intros k Hk. specialize (Hle k Hk). unfold threshold. lia. }
    split; [now apply infer_below | exact Hall].
  - destruct (Z.le_gt_cases threshold (partial_ratio k (str_text text))) as [Hge|Hlow].
    + right. exists pre, k, post. repeat split; auto.
      now apply infer_of_scan with (s := partial_ratio k (str_text text)).
    + left. assert (Hall : forall k', In k' (scan_keys self) ->
                           partial_ratio k' (str_text text) < threshold).
      { intros k' Hk'. rewrite Hk in Hk'. apply in_app_or in Hk'.
        destruct Hk' as [Hk'|[<-|Hk']].
        - specialize (Hpre k' Hk'). lia.
        - exact Hlow.
        - specialize (Hpost k' Hk'). lia. }
      split; [now apply infer_below | exact Hall].
Qed.

(** The first key that reaches the greatest score decides the result. *)
Lemma infer_first_best : forall text pre k post,
  scan_keys self = pre ++ k :: post ->
  (forall k', In k' pre ->
     partial_ratio k' (str_text text) < partial_ratio k (str_text text)) ->
  (forall k', In k' post ->
     partial_ratio k' (str_text text) <= partial_ratio k (str_text text)) ->
  threshold <= partial_ratio k (str_text text) ->
  _infer partial_ratio self text = Some (_normal_value self k).
Proof.
  intros text pre k post Hk Hpre Hpost Hge.
  apply infer_of_scan with (s := partial_ratio k (str_text text)); [|exact Hge].
  rewrite Hk. apply scan_first_best; auto. unfold threshold in Hge. lia.
Qed.

(** [_normal_value] on a scanned key: the value under the key in
    [gen_dict] if it is there, else the value under it in [nongen_dict];
    the default of the inner [get] is not reached. *)
Lemma normal_value_of_key : forall k v,
  In k (scan_keys self) ->
  (v = _normal_value self k <->
   (forall c, dict_get (gen_dict self) k = Some c -> v = c)
   /\ (dict_get (gen_dict self) k = None -> dict_get (nongen_dict self) k = Some v)).
Proof.
  intros k v Hk. unfold _normal_value, dict_get_default.
  destruct (dict_get (gen_dict self) k) as [c|] eqn:Hg.
  - split.
    + intros ->. split; [intros c' [= <-]; reflexivity | discriminate].
    + intros [H _]. now apply H.
  - assert (Hn : exists c, dict_get (nongen_dict self) k = Some c).
    { unfold scan_keys in Hk. apply in_app_or in Hk. destruct Hk as [Hk|Hk].
      - apply dict_get_key in Hk. destruct Hk as [c Hc]. congruence.
      - now apply dict_get_key. }
    destruct Hn as [c Hc]. rewrite Hc. split.
    + intros ->. split; [discriminate | reflexivity].
    + intros [_ H]. specialize (H eq_refl). congruence.
Qed.

Lemma normal_value_stored : forall k,
  In k (scan_keys self) ->
  In (k, _normal_value self k) (gen_dict self)
  \/ In (k, _normal_value self k) (nongen_dict self).
Proof.
  intros k Hk. unfold _normal_value, dict_get_default.
  destruct (dict_get (gen_dict self) k) as [c|] eqn:Hg.
  - left. now apply dict_get_In.
  - right. unfold scan_keys in Hk. apply in_app_or in Hk. destruct Hk as [Hk|Hk].
    + apply dict_get_key in Hk. destruct Hk as [c Hc]. congruence.
    + apply dict_get_key in Hk. destruct Hk as [c Hc]. rewrite Hc.
      now apply dict_get_In.
Qed.

End DictionaryResolution.

(** C3. Base resolution of a dictionary slot joins the token surfaces with
    spaces into the probe, scores every key of [gen_dict] and then every key
    of [nongen_dict] against it, and answers with the canonical value of the
    first key that reaches the greatest score when that score is at least
    [threshold] (84): the value under the key in [gen_dict] if the key is
    there, else the value under it in [nongen_dict]. It answers [None]
    exactly when every key scores below [threshold]. *)
Theorem infer_first_best_match :
  forall (partial_ratio : scorer) (self : attrs) (text : list token),
    let probe := PyStr.join " " (map _text text) in
    let keys := dict_keys (gen_dict self) ++ dict_keys (nongen_dict self) in
    (forall v,
       _infer partial_ratio self text = Some v <->
       exists pre k post,
         keys = pre ++ k :: post
         /\ (forall k', In k' pre -> partial_ratio k' probe < partial_ratio k probe)
         /\ (forall k', In k' post -> partial_ratio k' probe <= partial_ratio k probe)
         /\ threshold <= partial_ratio k probe
         /\ (forall c, dict_get (gen_dict self) k = Some c -> v = c)
         /\ (dict_get (gen_dict self) k = None -> dict_get (nongen_dict self) k = Some v))
    /\ (_infer partial_ratio self text = None <->
        forall k, In k keys -> partial_ratio k probe < threshold)
    /\ threshold = 84.
Proof.
  intros partial_ratio self text probe keys.
  change probe with (str_text text). change keys with (scan_keys self).
  clear probe keys. split; [|split; [|reflexivity]].
  - intros v. split.
    + intros Hv.
      destruct (infer_cases partial_ratio self text)
        as [[Hnone _]|(pre & k & post & Hk & Hpre & Hpost & Hge & Hsome)].
      * congruence.
      * exists pre, k, post. repeat split; auto;
          assert (Hin : In k (scan_keys self))
            by (rewrite Hk; apply in_or_app; right; now left);
          assert (Hnv : v = _normal_value self k) by congruence;
          apply (normal_value_of_key self k v Hin) in Hnv; tauto.
    + intros (pre & k & post & Hk & Hpre & Hpost & Hge & Hgen & Hnon).
      rewrite (infer_first_best partial_ratio self text pre k post Hk Hpre Hpost Hge).
      f_equal. symmetry. apply normal_value_of_key.
      * rewrite Hk. apply in_or_app. right. now left.
      * now split.
  - split.
    + intros Hnone.
      destruct (infer_cases partial_ratio self text)
        as [[_ Hall]|(pre & k & post & _ & _ & _ & _ & Hsome)]; [exact Hall | congruence].
    + apply infer_below.
Qed.

(** *** Running examples *)

Example currency_block_loads :
  read_slots_from_tsv ws_tokenizer
    [["cur.CurrencySlot"; "Which currency?"]; ["rub"]; ["eur"]; ["usd"; "dollars"]; []]
  = Ok [CurrencySlot currency_attrs ["rub"; "eur"; "usd"]].
Proof. reflexivity. Qed.

Example payment_block_loads :
  read_slots_from_tsv ws_tokenizer
    [["method.DictionarySlot"; "How?"]; ["card"]; ["credit"; "credit card"]; []]
  = Ok [DictionarySlot payment_attrs].
Proof. reflexivity. Qed.

Example dollars_resolve_to_usd :
  _infer containment_ratio currency_attrs [Token "dollars"] = Some "usd".
Proof. reflexivity. Qed.

Example unknown_text_resolves_to_null :
  _infer containment_ratio currency_attrs [Token "good"; Token "morning"] = None.
Proof. reflexivity. Qed.

(** C5, as stated, fails: the probe [credit card] is a key of the slot and
    scores 100 against itself, yet resolution answers [card], the value of
    the key [card], which is scanned first and, occurring inside the probe,
    scores 100 as well ([fuzz.partial_ratio] gives 100 to that pair too);
    the canonical value of the probed key is [credit]. *)
Lemma exact_key_shadowed_by_earlier_key :
  In "credit card" (scan_keys payment_attrs)
  /\ str_text [Token "credit"; Token "card"] = "credit card"
  /\ containment_ratio "credit card" "credit card" = 100
  /\ containment_ratio "card" "credit card" = 100
  /\ _normal_value payment_attrs "credit card" = "credit"
  /\ _infer containment_ratio payment_attrs [Token "credit"; Token "card"] = Some "card".
Proof. repeat split; try reflexivity. simpl. tauto. Qed.

(** C5, amended. When the probe equals a key of the slot that scores 100
    against itself, 100 being the greatest score of the slot's keys,
    resolution answers a value, never [None]: the canonical value of the
    first key in scan order that scores 100 against the probe. That is the
    canonical value of the probed key itself when no key scanned before it
    scores 100. *)
Theorem exact_key_resolves_to_first_full_score :
  forall (partial_ratio : scorer) (self : attrs) (text : list token) (k : string),
    (forall k', In k' (scan_keys self) -> partial_ratio k' k <= 100) ->
    In k (scan_keys self) ->
    str_text text = k ->
    partial_ratio k k = 100 ->
    (exists pre w post,
        scan_keys self = pre ++ w :: post
        /\ partial_ratio w k = 100
        /\ (forall k', In k' pre -> partial_ratio k' k < 100)
        /\ _infer partial_ratio self text = Some (_normal_value self w))
    /\ (forall pre post,
          scan_keys self = pre ++ k :: post ->
          (forall k', In k' pre -> partial_ratio k' k < 100) ->
          _infer partial_ratio self text = Some (_normal_value self k)).
Proof.
  intros partial_ratio self text k Hmax Hin Hprobe Hself. split.
  - destruct (infer_cases partial_ratio self text)
      as [[_ Hall]|(pre & w & post & Hk & Hpre & Hpost & Hge & Hsome)].
    + specialize (Hall k Hin). rewrite Hprobe, Hself in Hall. unfold threshold in Hall. lia.
    + rewrite Hprobe in *.
      assert (Hw : partial_ratio w k = 100).
      { assert (partial_ratio w k <= 100)
          by (apply Hmax; rewrite Hk; apply in_or_app; right; now left).
        assert (100 <= partial_ratio w k); [|lia].
        rewrite Hk in Hin. apply in_app_or in Hin. destruct Hin as [Hin|[<-|Hin]].
        - specialize (Hpre k Hin). lia.
        - lia.
        - specialize (Hpost k Hin). lia. }
      exists pre, w, post. rewrite Hw in Hpre. auto.
  - intros pre post Hk Hpre.
    apply infer_first_best with (pre := pre) (post := post); rewrite ?Hprobe, ?Hself; auto.
    + intros k' Hk'. apply Hmax. rewrite Hk. apply in_or_app. right. now right.
    + unfold threshold. lia.
Qed.

(** The probe [dollars] on the currency slot: no earlier key scores 100. *)
Lemma exact_key_resolves_to_first_full_score_witness :
  In "dollars" (scan_keys currency_attrs)
  /\ containment_ratio "dollars" "dollars" = 100
  /\ _infer containment_ratio currency_attrs [Token "dollars"]
     = Some (_normal_value currency_attrs "dollars").
Proof.
  assert (Hmax : forall k', In k' (scan_keys currency_attrs) ->
                   containment_ratio k' "dollars" <= 100)
    by (intros k' H; each_member H; by_evaluation).
  assert (Hin : In "dollars" (scan_keys currency_attrs)) by (simpl; tauto).
  split; [exact Hin|]. split; [reflexivity|].
  apply (proj2 (exact_key_resolves_to_first_full_score containment_ratio currency_attrs
                  [Token "dollars"] Hmax Hin eq_refl eq_refl)
           ["rub"; "eur"; "usd"] []); [reflexivity|].
  intros k' H; each_member H; by_evaluation.
Defined.

(** C8, as stated, fails on the empty token sequence: a synonym cell that
    ends in a comma loads the empty string as a key, the empty probe equals
    that key, equal strings score 100, and both entry points answer the
    canonical value [usd]. *)
Lemma empty_key_resolves_empty_input :
  read_slots_from_tsv ws_tokenizer
    [["cur.CurrencySlot"; "Which currency?"]; ["usd"; "dollars,"]]
  = Ok [CurrencySlot trailing_comma_attrs ["rub"; "eur"; "usd"]]
  /\ uses_dictionary_strategy (CurrencySlot trailing_comma_attrs ["rub"; "eur"; "usd"]) = true
  /\ guarded_ratio "" "" = 100
  /\ infer_from_single_slot guarded_ratio silent_recognizer
       (CurrencySlot trailing_comma_attrs ["rub"; "eur"; "usd"]) [] = Ok (Some "usd")
  /\ infer_from_compositional_request guarded_ratio silent_recognizer
       (CurrencySlot trailing_comma_attrs ["rub"; "eur"; "usd"]) [] = Ok (Some "usd").
Proof. repeat split. Qed.

(** C8, amended. A dictionary slot without any key resolves every input to
    [None] without raising. A dictionary slot resolves the empty token
    sequence without raising, and to [None] exactly when each of its keys
    scores below the threshold against the empty probe. With a matcher that
    scores every key other than the empty string below the threshold
    against the empty probe, that is so when the empty string is not a key;
    when the empty string is a key and scores at least the threshold against
    itself, the empty token sequence resolves to the canonical value of that
    key. *)
Theorem empty_input_and_empty_vocabulary_resolution :
  forall (partial_ratio : scorer) (get_json : recognizer) (s : slot),
    uses_dictionary_strategy s = true ->
    let self := slot_attrs s in
    (gen_dict self = [] -> nongen_dict self = [] ->
     forall text,
       infer_from_single_slot partial_ratio get_json s text = Ok None
       /\ infer_from_compositional_request partial_ratio get_json s text = Ok None)
    /\ (exists r,
          infer_from_single_slot partial_ratio get_json s [] = Ok r
          /\ infer_from_compositional_request partial_ratio get_json s [] = Ok r
          /\ (r = None <->
              forall k, In k (scan_keys self) -> partial_ratio k "" < threshold))
    /\ ((forall k, k <> "" -> partial_ratio k "" < threshold) ->
        (~ In "" (scan_keys self) ->
         infer_from_single_slot partial_ratio get_json s [] = Ok None
         /\ infer_from_compositional_request partial_ratio get_json s [] = Ok None)
        /\ (In "" (scan_keys self) -> threshold <= partial_ratio "" "" ->
            infer_from_single_slot partial_ratio get_json s []
            = Ok (Some (_normal_value self ""))
            /\ infer_from_compositional_request partial_ratio get_json s []
               = Ok (Some (_normal_value self "")))).
Proof.
  intros partial_ratio get_json s Hs self.
  assert (Hentry : forall text,
             infer_from_single_slot partial_ratio get_json s text
             = Ok (_infer partial_ratio self text)
             /\ infer_from_compositional_request partial_ratio get_json s text
                = Ok (_infer partial_ratio self text))
    by (intros text; destruct s; try discriminate; split; reflexivity).
  split; [|split].
  - intros Hg Hn text. destruct (Hentry text) as [-> ->].
    assert (H : _infer partial_ratio self text = None).
    { apply infer_below. unfold scan_keys. rewrite Hg, Hn. intros k []. }
    now rewrite H.
  - destruct (Hentry []) as [-> ->].
    exists (_infer partial_ratio self []). split; [reflexivity|]. split; [reflexivity|].
    split.
    + intros Hnone.
      destruct (infer_cases partial_ratio self [])
        as [[_ Hall]|(pre & k & post & _ & _ & _ & _ & Hsome)]; [exact Hall | congruence].
    + intros Hall. now apply infer_below.
  - intros Hother. destruct (Hentry []) as [-> ->]. split.
    + intros Hnokey.
      assert (H : _infer partial_ratio self [] = None).
      { apply infer_below. intros k Hk. apply Hother. intros ->. contradiction. }
      now rewrite H.
    + intros Hkey Hself.
      assert (H : _infer partial_ratio self [] = Some (_normal_value self "")).
      { destruct (infer_cases partial_ratio self [])
          as [[_ Hall]|(pre & k & post & _ & _ & _ & Hge & Hsome)].
        - specialize (Hall "" Hkey). change (str_text []) with "" in Hall. lia.
        - destruct (String.eqb_spec k "") as [->|Hne]; [exact Hsome|].
          specialize (Hother k Hne). change (str_text []) with "" in Hge. lia. }
      now rewrite H.
Qed.

(** The currency slot, whose keys are not empty, on the empty input. *)
Lemma empty_input_and_empty_vocabulary_resolution_witness :
  infer_from_single_slot guarded_ratio silent_recognizer
    (CurrencySlot currency_attrs ["rub"; "eur"; "usd"]) [] = Ok None
  /\ infer_from_compositional_request guarded_ratio silent_recognizer
       (CurrencySlot currency_attrs ["rub"; "eur"; "usd"]) [] = Ok None.
Proof.
  assert (Hother : forall k, k <> "" -> guarded_ratio k "" < threshold).
  { intros k Hk. unfold guarded_ratio, containment_ratio.
    destruct (String.eqb_spec k ""); [contradiction|].
    rewrite orb_true_r. reflexivity. }
  refine (proj1 (proj2 (proj2 (@empty_input_and_empty_vocabulary_resolution
                                 guarded_ratio silent_recognizer
                                 (CurrencySlot currency_attrs ["rub"; "eur"; "usd"])
                                 eq_refl)) Hother) _).
  intros H. each_member H; discriminate.
Defined.

(** ** Classifier slots without a model *)

(** C1, as stated, fails on the single-slot entry point: a classifier slot
    as its constructor leaves it, without a model, resolves there through the
    dictionary and answers [None] or a value; it does not raise. *)
Lemma unattached_classifier_single_slot_does_not_raise :
  ClassifierSlot_init repeat_attrs = Ok (ClassifierSlot repeat_attrs "yes" None)
  /\ infer_from_single_slot containment_ratio silent_recognizer
       (ClassifierSlot repeat_attrs "yes" None) [] = Ok None
  /\ infer_from_single_slot containment_ratio silent_recognizer
       (ClassifierSlot repeat_attrs "yes" None) [Token "yes"] = Ok (Some "yes").
Proof. repeat split. Qed.

(** C1, amended. A classifier slot without a model raises the no-model
    error on the compositional-request entry point and on the batch entry
    point, whatever the input; its single-slot entry point is the one
    inherited from the dictionary slot: it does not consult the model and
    answers what base dictionary resolution answers. *)
Theorem unattached_classifier_resolution :
  forall (partial_ratio : scorer) (get_json : recognizer)
         (self : attrs) (true_ : string) (text : list token),
    infer_from_compositional_request partial_ratio get_json
      (ClassifierSlot self true_ None) text
    = Raise (NotImplementedError "No model specified!")
    /\ (forall list_texts,
          infer_from_compositional_batch None list_texts
          = Raise (NotImplementedError "No model specified!"))
    /\ infer_from_single_slot partial_ratio get_json (ClassifierSlot self true_ None) text
       = Ok (_infer partial_ratio self text).
Proof. intros. repeat split. Qed.

(** ** Compositional slots *)

Section Compositional.

Variable partial_ratio : scorer.
Variable get_json : recognizer.
Variable text : list token.

Lemma compositional_request_children : forall self children,
  infer_from_compositional_request partial_ratio get_json
    (CompositionalSlot self children) text
  = first_resolved
      (map (fun c => infer_from_compositional_request partial_ratio get_json c text)
         children).
Proof.
  intros self children. simpl.
  induction children as [|c rest IH]; [reflexivity|]. simpl.
  destruct (infer_from_compositional_request partial_ratio get_json c text)
    as [[v|]|e]; [reflexivity | exact IH | reflexivity].
Qed.

Lemma compositional_single_children : forall self children,
  infer_from_single_slot partial_ratio get_json (CompositionalSlot self children) text
  = first_resolved
      (map (fun c => infer_from_single_slot partial_ratio get_json c text) children).
Proof.
  intros self children. simpl.
  induction children as [|c rest IH]; [reflexivity|]. simpl.
  destruct (infer_from_single_slot partial_ratio get_json c text)
    as [[v|]|e]; [reflexivity | exact IH | reflexivity].
Qed.

End Compositional.

Section FirstResolved.

Variable A : Type.
Variable resolve : A -> result (option string).

Lemma first_resolved_skips : forall pre rest,
  (forall p, In p pre -> resolve p = Ok None) ->
  first_resolved (map resolve (pre ++ rest)) = first_resolved (map resolve rest).
Proof.
  induction pre as [|p pre IH]; intros rest H; [reflexivity|].
  simpl. rewrite (H p) by now left. apply IH. intros q Hq. apply H. now right.
Qed.

Lemma first_resolved_first : forall pre c post,
  (forall p, In p pre -> resolve p = Ok None) ->
  resolve c <> Ok None ->
  first_resolved (map resolve (pre ++ c :: post)) = resolve c.
Proof.
  intros pre c post Hpre Hc. rewrite first_resolved_skips by exact Hpre.
  simpl. destruct (resolve c) as [[v|]|e]; [reflexivity | congruence | reflexivity].
Qed.

Lemma first_resolved_null : forall cs,
  first_resolved (map resolve cs) = Ok None <->
  forall c, In c cs -> resolve c = Ok None.
Proof.
  induction cs as [|c cs IH]; simpl.
  - split; [intros _ c [] | reflexivity].
  - destruct (resolve c) as [[v|]|e] eqn:Hc.
    + split; [discriminate|]. intros H. specialize (H c (or_introl eq_refl)). congruence.
    + rewrite IH. split.
      * intros H c' [<-|Hc']; [exact Hc | now apply H].
      * intros H c' Hc'. apply H. now right.
    + split; [discriminate|]. intros H. specialize (H c (or_introl eq_refl)). congruence.
Qed.

End FirstResolved.

(** C6. On either entry point a compositional slot answers what the first
    child in configured order answers that does not answer [None] (an
    exception of that child included); it answers [None] exactly when every
    child does; and when the children at indices 0 and 1 both answer a value,
    it answers the value of the child at index 0. *)
Theorem compositional_first_non_null :
  forall (partial_ratio : scorer) (get_json : recognizer)
         (self : attrs) (children : list slot) (text : list token),
    let composite := CompositionalSlot self children in
    let request := fun s => infer_from_compositional_request partial_ratio get_json s text in
    let single := fun s => infer_from_single_slot partial_ratio get_json s text in
    ((forall pre c post,
        children = pre ++ c :: post ->
        (forall p, In p pre -> request p = Ok None) ->
        request c <> Ok None ->
        request composite = request c)
     /\ (request composite = Ok None <-> forall c, In c children -> request c = Ok None)
     /\ (forall c0 c1 rest v0 v1,
           children = c0 :: c1 :: rest ->
           request c0 = Ok (Some v0) -> request c1 = Ok (Some v1) ->
           request composite = Ok (Some v0)))
    /\ ((forall pre c post,
           children = pre ++ c :: post ->
           (forall p, In p pre -> single p = Ok None) ->
           single c <> Ok None ->
           single composite = single c)
        /\ (single composite = Ok None <-> forall c, In c children -> single c = Ok None)
        /\ (forall c0 c1 rest v0 v1,
              children = c0 :: c1 :: rest ->
              single c0 = Ok (Some v0) -> single c1 = Ok (Some v1) ->
              single composite = Ok (Some v0))).
Proof.
  intros partial_ratio get_json self children text composite request single.
  assert (Hr : request composite = first_resolved (map request children))
    by apply compositional_request_children.
  assert (Hs : single composite = first_resolved (map single children))
    by apply compositional_single_children.
  split; (split; [|split]).
  - intros pre c post -> Hpre Hc. rewrite Hr. now apply first_resolved_first.
  - rewrite Hr. apply first_resolved_null.
  - intros c0 c1 rest v0 v1 -> H0 _. rewrite Hr. simpl. now rewrite H0.
  - intros pre c post -> Hpre Hc. rewrite Hs. now apply first_resolved_first.
  - rewrite Hs. apply first_resolved_null.
  - intros c0 c1 rest v0 v1 -> H0 _. rewrite Hs. simpl. now rewrite H0.
Qed.

(** Two children that both resolve [card]: the composite answers with the
    value of the first. *)
Lemma compositional_first_non_null_witness :
  infer_from_compositional_request containment_ratio silent_recognizer
    (DictionarySlot plastic_attrs) [Token "card"] = Ok (Some "plastic")
  /\ infer_from_compositional_request containment_ratio silent_recognizer
       (CompositionalSlot method_attrs
          [DictionarySlot payment_attrs; DictionarySlot plastic_attrs])
       [Token "card"] = Ok (Some "card").
Proof.
  split; [reflexivity|].
  exact (proj2 (proj2 (proj1 (compositional_first_non_null containment_ratio
                                silent_recognizer method_attrs
                                [DictionarySlot payment_attrs; DictionarySlot plastic_attrs]
                                [Token "card"])))
           (DictionarySlot payment_attrs) (DictionarySlot plastic_attrs) []
           "card" "plastic" eq_refl eq_refl eq_refl).
Defined.

(** ** The schema loader *)

Section LoaderFacts.

Variable feed : tokenizer.

Lemma loader_run_app : forall rows1 rows2 st,
  loader_run feed st (rows1 ++ rows2)
  = (st' <- loader_run feed st rows1 ;; loader_run feed st' rows2).
Proof.
  induction rows1 as [|row rows1 IH]; intros rows2 st; [reflexivity|].
  simpl. destruct (loader_step feed st row) as [st1|e]; simpl; [apply IH | reflexivity].
Qed.

(** A property of the loader's variables that every row keeps holds after
    the loop. *)
Lemma loader_run_invariant : forall (I : loader -> Prop),
  (forall st row st', I st -> loader_step feed st row = Ok st' -> I st') ->
  forall rows st st', I st -> loader_run feed st rows = Ok st' -> I st'.
Proof.
  intros I Hstep. induction rows as [|row rows IH]; intros st st' Hst Hrun.
  - simpl in Hrun. now injection Hrun as <-.
  - simpl in Hrun. destruct (loader_step feed st row) as [st1|e] eqn:H1; simpl in Hrun.
    + apply (IH st1 st'); [now apply (Hstep st row) | exact Hrun].
    + discriminate.
Qed.

(** Every class keeps the attributes it is given. *)
Lemma construct_attrs : forall class a prev extra s,
  construct class a prev extra = Ok s -> slot_attrs s = a.
Proof.
  intros class a prev extra s. unfold construct.
  repeat match goal with
         | |- context [String.eqb class ?c] => destruct (String.eqb class c)
         end;
    try (intros [= <-]; reflexivity); try discriminate.
  - unfold ClassifierSlot_init. destruct (values_order a); [discriminate|].
    intros [= <-]. reflexivity.
  - unfold CompositionalSlot_init.
    destruct (lookup_children prev extra); simpl; [|discriminate].
    intros [= <-]. reflexivity.
Qed.

(** Called without extra arguments, the constructor of a compositional
    slot finds no child to look up. *)
Lemma construct_without_args : forall class a prev s self children,
  construct class a prev [] = Ok s ->
  s = CompositionalSlot self children -> children = [].
Proof.
  intros class a prev s self children. unfold construct.
  repeat match goal with
         | |- context [String.eqb class ?c] => destruct (String.eqb class c)
         end;
    try (intros [= <-]; discriminate); try discriminate.
  - unfold ClassifierSlot_init. destruct (values_order a); [discriminate|].
    intros [= <-]. discriminate.
  - simpl. intros [= <-] [= _ <-]. reflexivity.
Qed.

(** What [make_slot] appends. *)
Lemma make_slot_appends : forall st name slots,
  make_slot st name = Ok slots ->
  exists s,
    slots = result_slots st ++ [s]
    /\ construct (slot_class st)
         (DictionarySlot_init name (info_question st) (generative_slot_values st)
            (nongenerative_slot_values st) (normal_names_order st))
         (result_slots st) [] = Ok s.
Proof.
  intros st name slots. unfold make_slot.
  destruct (construct _ _ _ _) as [s|e]; simpl; [|discriminate].
  intros [= <-]. now exists s.
Qed.

(** A property of slots that each constructed slot has, given the
    loader's variables at the time, holds of every loaded slot. *)
Lemma loaded_slots_invariant : forall (I : loader -> Prop) (P : slot -> Prop),
  I loader_init ->
  (forall st row st', I st -> loader_step feed st row = Ok st' -> I st') ->
  (forall st name s,
     I st -> slot_name st = Some name ->
     construct (slot_class st)
       (DictionarySlot_init name (info_question st) (generative_slot_values st)
          (nongenerative_slot_values st) (normal_names_order st))
       (result_slots st) [] = Ok s ->
     P s) ->
  forall rows slots s,
    read_slots_from_tsv feed rows = Ok slots -> In s slots -> P s.
Proof.
  intros I P Hinit Hstep Hmake rows slots s Hread Hs.
  set (J := fun st => I st /\ forall s, In s (result_slots st) -> P s).
  assert (HJ : forall st row st', J st -> loader_step feed st row = Ok st' -> J st').
  { intros st row st' [HI HP] H. split; [now apply (Hstep st row)|].
    unfold loader_step in H. destruct (slot_name st) as [name|] eqn:Hname.
    - destruct (String.eqb (PyStr.concat_all row) "").
      + unfold blank_row in H. destruct (make_slot st name) as [slots'|e] eqn:Hm;
          simpl in H; [|discriminate].
        injection H as <-. simpl.
        apply make_slot_appends in Hm. destruct Hm as (s0 & -> & Hc).
        intros s' Hs'. apply in_app_or in Hs'. destruct Hs' as [Hs'|[<-|[]]].
        * now apply HP.
        * now apply (Hmake st name).
      + unfold value_row in H.
        destruct (match row with
                  | [n] => Ok (n, "", "")
                  | [n; g] => Ok (n, g, "")
                  | [n; g; ng] => Ok (n, g, ng)
                  | _ => Raise (Exception_ "")
                  end) as [[[n g] ng]|e]; simpl in H; [|discriminate].
        destruct (match split_syns ng with
                  | [] => Ok tt
                  | _ :: _ =>
                      match split_syns g with
                      | [] => Ok tt
                      | _ :: _ =>
                          if intersects (split_syns ng) (split_syns g)
                          then Raise AssertionError else Ok tt
                      end
                  end); simpl in H; [|discriminate].
        injection H as <-. exact HP.
    - unfold header_row in H.
      destruct (getitem row 0) as [cell0|]; simpl in H; [|discriminate].
      destruct (getitem (PyStr.split_ws cell0) 0) as [word|]; simpl in H; [|discriminate].
      destruct (PyStr.split_char dot word) as [|name [|class extra]]; try discriminate.
      destruct (getitem row 1) as [cell1|]; simpl in H; [|discriminate].
      injection H as <-. exact HP. }
  unfold read_slots_from_tsv in Hread.
  destruct (loader_run feed loader_init rows) as [st|e] eqn:Hrun; simpl in Hread; [|discriminate].
  assert (Hst : J st).
  { apply (loader_run_invariant J HJ rows loader_init); [|exact Hrun].
    split; [exact Hinit | intros s' []]. }
  destruct Hst as [HI HP].
  unfold loader_flush in Hread. destruct (slot_name st) as [name|] eqn:Hname.
  - destruct (String.eqb name "").
    + injection Hread as <-. now apply HP.
    + apply make_slot_appends in Hread. destruct Hread as (s0 & -> & Hc).
      apply in_app_or in Hs. destruct Hs as [Hs|[<-|[]]].
      * now apply HP.
      * now apply (Hmake st name).
  - injection Hread as <-. now apply HP.
Qed.

End LoaderFacts.

Section BlockFacts.

Variable feed : tokenizer.

Lemma set_all_In : forall syns d n k v,
  In (k, v) (set_all feed d syns n) -> In (k, v) d \/ v = n.
Proof.
  unfold set_all. induction syns as [|s syns IH]; intros d n k v H; simpl in H.
  - now left.
  - apply IH in H. destruct H as [H|H]; [|now right].
    apply dict_set_In in H. destruct H as [H|[_ H]]; [now left | now right].
Qed.

Lemma set_all_keys : forall syns d n k,
  In k (dict_keys d) -> In k (dict_keys (set_all feed d syns n)).
Proof.
  unfold set_all. induction syns as [|s syns IH]; intros d n k H; simpl.
  - exact H.
  - apply IH. now apply dict_set_key_old.
Qed.

Lemma header_row_ok : forall st row st',
  header_row st row = Ok st' ->
  slot_name st' <> None
  /\ normal_names_order st' = []
  /\ generative_slot_values st' = generative_slot_values st
  /\ nongenerative_slot_values st' = nongenerative_slot_values st
  /\ result_slots st' = result_slots st.
Proof.
  intros st row st' H. unfold header_row in H.
  destruct (getitem row 0) as [cell0|]; simpl in H; [|discriminate].
  destruct (getitem (PyStr.split_ws cell0) 0) as [word|]; simpl in H; [|discriminate].
  destruct (PyStr.split_char dot word) as [|name [|class extra]]; try discriminate.
  destruct (getitem row 1) as [cell1|]; simpl in H; [|discriminate].
  injection H as <-. simpl. repeat split. discriminate.
Qed.

Lemma value_row_ok : forall st row st',
  value_row feed st row = Ok st' ->
  exists n g ng,
    slot_name st' = slot_name st
    /\ normal_names_order st' = normal_names_order st ++ [pipe feed n]
    /\ generative_slot_values st'
       = set_all feed (dict_set (generative_slot_values st) (pipe feed n) (pipe feed n))
           (split_syns g) (pipe feed n)
    /\ nongenerative_slot_values st'
       = set_all feed (nongenerative_slot_values st) (split_syns ng) (pipe feed n)
    /\ result_slots st' = result_slots st.
Proof.
  intros st row st' H. unfold value_row in H.
  destruct (match row with
            | [n] => Ok (n, "", "")
            | [n; g] => Ok (n, g, "")
            | [n; g; ng] => Ok (n, g, ng)
            | _ => Raise (Exception_ "")
            end) as [[[n g] ng]|e]; simpl in H; [|discriminate].
  destruct (match split_syns ng with
            | [] => Ok tt
            | _ :: _ =>
                match split_syns g with
                | [] => Ok tt
                | _ :: _ =>
                    if intersects (split_syns ng) (split_syns g)
                    then Raise AssertionError else Ok tt
                end
            end); simpl in H; [|discriminate].
  injection H as <-. exists n, g, ng. simpl. repeat split.
Qed.

Lemma block_invariant_step : forall st row st',
  block_invariant st -> loader_step feed st row = Ok st' -> block_invariant st'.
Proof.
  intros st row st' Hinv H. unfold loader_step in H. unfold block_invariant in *.
  destruct (slot_name st) as [name|] eqn:Hname.
  - destruct (String.eqb (PyStr.concat_all row) "").
    + unfold blank_row in H. destruct (make_slot st name); simpl in H; [|discriminate].
      injection H as <-. simpl. now split.
    + apply value_row_ok in H.
      destruct H as (n & g & ng & Hn & Ho & Hg & Hng & _).
      rewrite Hn, Hname, Ho, Hg, Hng. destruct Hinv as (Hkeys & Hgen & Hnon).
      split; [|split].
      * intros m Hm. apply set_all_keys. apply in_app_or in Hm.
        destruct Hm as [Hm|[<-|[]]].
        -- apply dict_set_key_old. now apply Hkeys.
        -- apply dict_set_key_new.
      * intros k v Hkv. apply in_or_app. apply set_all_In in Hkv.
        destruct Hkv as [Hkv | ->]; [|right; now left].
        apply dict_set_In in Hkv. destruct Hkv as [Hkv | [_ ->]]; [|right; now left].
        left. now apply (Hgen k).
      * intros k v Hkv. apply in_or_app. apply set_all_In in Hkv.
        destruct Hkv as [Hkv | ->]; [|right; now left].
        left. now apply (Hnon k).
  - apply header_row_ok in H. destruct H as (Hn & Ho & Hg & Hng & _).
    destruct (slot_name st') as [name'|]; [|congruence].
    destruct Hinv as [Hg0 Hn0]. rewrite Ho, Hg, Hng, Hg0, Hn0.
    repeat split; intros; contradiction.
Qed.

End BlockFacts.

(** C10, as stated, fails: a generative synonym of a later row that
    normalizes to an earlier canonical name takes the name's place in the
    generative dictionary, so that the canonical value [A] is a key that
    maps to [B], not to itself. *)
Lemma canonical_value_remapped_by_later_synonym :
  read_slots_from_tsv ws_tokenizer
    [["cur.DictionarySlot"; "Which?"]; ["A"]; ["B"; "A"]]
  = Ok [DictionarySlot
          (DictionarySlot_init "cur" "Which?" [("A", "B"); ("B", "B")] [] ["A"; "B"])]
  /\ In "A" ["A"; "B"]
  /\ dict_get [("A", "B"); ("B", "B")] "A" = Some "B".
Proof. repeat split. now left. Qed.

(** C10, amended. For every slot that the schema loader produces, every
    canonical value (element of [values_order]) is a key of [gen_dict], and
    every value stored in [gen_dict] or in [nongen_dict] is a canonical
    value; consequently whatever base dictionary resolution answers for such
    a slot is the value stored under one of its keys and a canonical value,
    and not the default of the normalization lookup. *)
Theorem loaded_slot_values_are_canonical :
  forall (feed : tokenizer) (rows : list (list string)) (slots : list slot) (s : slot),
    read_slots_from_tsv feed rows = Ok slots ->
    In s slots ->
    let self := slot_attrs s in
    (forall n, In n (values_order self) -> In n (dict_keys (gen_dict self)))
    /\ (forall k v, dict_get (gen_dict self) k = Some v -> In v (values_order self))
    /\ (forall k v, dict_get (nongen_dict self) k = Some v -> In v (values_order self))
    /\ (forall (partial_ratio : scorer) (text : list token) (v : string),
          _infer partial_ratio self text = Some v ->
          In v (values_order self)
          /\ exists k, In (k, v) (gen_dict self) \/ In (k, v) (nongen_dict self)).
Proof.
  intros feed rows slots s Hread Hs self.
  assert (Hc : canonical_closed (gen_dict self) (nongen_dict self) (values_order self)).
  { unfold self.
    apply (loaded_slots_invariant feed block_invariant
             (fun s => canonical_closed (gen_dict (slot_attrs s)) (nongen_dict (slot_attrs s))
                         (values_order (slot_attrs s))))
      with (rows := rows) (slots := slots); auto.
    - simpl. now split.
    - apply block_invariant_step.
    - intros st name s0 Hinv Hname Hcons.
      apply construct_attrs in Hcons. rewrite Hcons. simpl.
      unfold block_invariant in Hinv. now rewrite Hname in Hinv. }
  destruct Hc as (Hkeys & Hgen & Hnon).
  split; [exact Hkeys|]. split; [|split].
  - intros k v H. apply (Hgen k). now apply dict_get_In.
  - intros k v H. apply (Hnon k). now apply dict_get_In.
  - intros partial_ratio text v Hv.
    destruct (infer_cases partial_ratio self text)
      as [[Hnone _]|(pre & k & post & Hk & _ & _ & _ & Hsome)]; [congruence|].
    assert (Hin : In k (scan_keys self))
      by (rewrite Hk; apply in_or_app; right; now left).
    assert (v = _normal_value self k) by congruence. subst v.
    destruct (normal_value_stored self k Hin) as [H|H].
    + split; [now apply (Hgen k) | exists k; now left].
    + split; [now apply (Hnon k) | exists k; now right].
Qed.

(** The canonical value [usd] of the loaded currency block. *)
Lemma loaded_slot_values_are_canonical_witness :
  In "usd" (values_order currency_attrs)
  /\ In "usd" (dict_keys (gen_dict currency_attrs)).
Proof.
  assert (Hin : In "usd" (values_order currency_attrs)) by (simpl; tauto).
  split; [exact Hin|].
  exact (proj1 (@loaded_slot_values_are_canonical ws_tokenizer
                  [["cur.CurrencySlot"; "Which currency?"]; ["rub"]; ["eur"];
                   ["usd"; "dollars"]; []]
                  [CurrencySlot currency_attrs ["rub"; "eur"; "usd"]]
                  (CurrencySlot currency_attrs ["rub"; "eur"; "usd"])
                  eq_refl (or_introl eq_refl))
           "usd" Hin).
Defined.

(** C2. The loader reads the child names off the header and then calls the
    constructor without them: every compositional slot it produces has an
    empty list of children, whatever the header names. A header that names a
    child defined later in the file loads, while the constructor, given the
    name, raises [KeyError]. *)
Theorem header_children_are_not_looked_up :
  (forall (feed : tokenizer) (rows : list (list string)) (slots : list slot)
          (self : attrs) (children : list slot),
      read_slots_from_tsv feed rows = Ok slots ->
      In (CompositionalSlot self children) slots ->
      children = [])
  /\ read_slots_from_tsv ws_tokenizer
       [["pay.CompositionalSlot.plastic"; "How?"]; [];
        ["plastic.DictionarySlot"; "Which card?"]; ["plastic"; "card"]; []]
     = Ok [CompositionalSlot method_attrs [];
           DictionarySlot
             (DictionarySlot_init "plastic" "Which card?"
                [("plastic", "plastic"); ("card", "plastic")] [] ["plastic"])]
  /\ CompositionalSlot_init method_attrs [] ["plastic"] = Raise (KeyError "plastic")
  /\ CompositionalSlot_init method_attrs [DictionarySlot plastic_attrs] ["plastic"]
     = Ok (CompositionalSlot method_attrs [DictionarySlot plastic_attrs]).
Proof.
  split; [|repeat split].
  intros feed rows slots self children Hread Hs.
  apply (loaded_slots_invariant feed (fun _ => True)
           (fun s => forall self children, s = CompositionalSlot self children -> children = []))
    with (rows := rows) (slots := slots) (s := CompositionalSlot self children)
         (self := self); auto.
  intros st name s _ _ Hcons self' children' Heq.
  now apply (construct_without_args _ _ _ Hcons Heq).
Qed.

(** C9. A trailing block whose slot id is not empty is finalized at the end
    of the input exactly as a blank row would have finalized it. A trailing
    block whose slot id is the empty string is dropped at the end of the
    input, though a blank row finalizes it. *)
Theorem trailing_block_flush :
  (forall (feed : tokenizer) (rows : list (list string)) (st : loader) (name : string),
      loader_run feed loader_init rows = Ok st ->
      slot_name st = Some name ->
      name <> "" ->
      read_slots_from_tsv feed rows = read_slots_from_tsv feed (rows ++ [[]]))
  /\ read_slots_from_tsv ws_tokenizer [[".DictionarySlot"; "q"]; ["a"]] = Ok []
  /\ read_slots_from_tsv ws_tokenizer [[".DictionarySlot"; "q"]; ["a"]; []]
     = Ok [DictionarySlot (DictionarySlot_init "" "q" [("a", "a")] [] ["a"])].
Proof.
  split; [|repeat split].
  intros feed rows st name Hrun Hname Hne.
  unfold read_slots_from_tsv. rewrite loader_run_app, Hrun. simpl.
  unfold loader_step, loader_flush. rewrite Hname. simpl.
  destruct (String.eqb_spec name "") as [->|_]; [contradiction|].
  unfold blank_row. destruct (make_slot st name); reflexivity.
Qed.

(** C4, as stated, fails: the surface form [x] is a generative synonym on
    one row and a nongenerative synonym on another row of the same block;
    the load succeeds and [x] is a key of both dictionaries. *)
Lemma same_surface_form_on_two_rows_loads :
  read_slots_from_tsv ws_tokenizer
    [["cur.DictionarySlot"; "Which?"]; ["A"; "x"]; ["B"; ""; "x"]]
  = Ok [DictionarySlot
          (DictionarySlot_init "cur" "Which?"
             [("A", "A"); ("x", "A"); ("B", "B")] [("x", "B")] ["A"; "B"])]
  /\ In "x" (dict_keys [("A", "A"); ("x", "A"); ("B", "B")])
  /\ In "x" (dict_keys [("x", "B")]).
Proof. repeat split; simpl; tauto. Qed.

Lemma append_not_empty : forall a b : string, b <> "" -> (a ++ b)%string <> "".
Proof. intros [|c a] b H; simpl; [exact H | discriminate]. Qed.

Lemma intersects_common : forall a b x, In x a -> In x b -> intersects a b = true.
Proof.
  intros a b x Ha Hb. unfold intersects. apply existsb_exists. exists x.
  split; [exact Ha|]. apply existsb_exists. exists x.
  split; [exact Hb | apply String.eqb_refl].
Qed.

(** C4, amended. A value row of a block whose generative and
    nongenerative cells share a synonym, as the cells are split, makes the
    load fail with an assertion error. The check compares the synonyms of
    one row before they are normalized; a successful load does not make the
    key sets of the two dictionaries disjoint. *)
Theorem shared_synonym_in_row_rejected :
  forall (feed : tokenizer) (pre post : list (list string)) (st : loader)
         (n g ng x : string),
    loader_run feed loader_init pre = Ok st ->
    slot_name st <> None ->
    In x (split_syns g) ->
    In x (split_syns ng) ->
    read_slots_from_tsv feed (pre ++ [n; g; ng] :: post) = Raise AssertionError.
Proof.
  intros feed pre post st n g ng x Hrun Hname Hg Hng.
  unfold read_slots_from_tsv. rewrite loader_run_app, Hrun. simpl.
  assert (Hstep : loader_step feed st [n; g; ng] = Raise AssertionError).
  { unfold loader_step. destruct (slot_name st) as [name|]; [|congruence].
    assert (Hrow : PyStr.concat_all [n; g; ng] <> "").
    { simpl. apply append_not_empty. intros H.
      destruct g; [exact Hg | discriminate]. }
    destruct (String.eqb_spec (PyStr.concat_all [n; g; ng]) ""); [contradiction|].
    unfold value_row. simpl.
    rewrite (intersects_common _ _ x Hng Hg).
    destruct (split_syns ng); [contradiction|].
    destruct (split_syns g); [contradiction|]. reflexivity. }
  now rewrite Hstep.
Qed.

(** The row [A, x, x] of the specification. *)
Lemma shared_synonym_in_row_rejected_witness :
  read_slots_from_tsv ws_tokenizer [["cur.DictionarySlot"; "Which?"]; ["A"; "x"; "x"]]
  = Raise AssertionError.
Proof.
  apply (@shared_synonym_in_row_rejected ws_tokenizer
           [["cur.DictionarySlot"; "Which?"]] []
           {| slot_name := Some "cur"; slot_class := "DictionarySlot"; args := [];
              info_question := "Which?"; normal_names_order := [];
              generative_slot_values := []; nongenerative_slot_values := [];
              result_slots := [] |}
           "A" "x" "x" "x").
  - reflexivity.
  - discriminate.
  - simpl. now left.
  - simpl. now left.
Defined.

(** ** Loading with trained models *)

Lemma load_models_missing_artifact : forall fs folder slots s,
  In s slots ->
  is_ClassifierSlot s = true ->
  fs (os_path_join folder (slot_id s ++ ".model")%string) = None ->
  exists s',
    In s' slots
    /\ is_ClassifierSlot s' = true
    /\ fs (os_path_join folder (slot_id s' ++ ".model")%string) = None
    /\ load_models fs folder slots
       = Raise (Exception_
                  (os_path_join folder (slot_id s' ++ ".model") ++ " does not exist")%string).
Proof.
  intros fs folder. induction slots as [|s0 rest IH]; intros s Hs Hc Hfs; [contradiction|].
  simpl.
  destruct (is_ClassifierSlot s0) eqn:Hc0.
  - destruct (fs (os_path_join folder (slot_id s0 ++ ".model")%string)) as [m|] eqn:Hfs0.
    + assert (Hrest : In s rest) by (destruct Hs as [<-|Hs]; [congruence | exact Hs]).
      destruct (IH s Hrest Hc Hfs) as (s' & Hin & Hc' & Hfs' & Hload).
      exists s'. split; [now right|]. split; [exact Hc'|]. split; [exact Hfs'|].
      unfold load_model. rewrite Hfs0.
      destruct s0; simpl; now rewrite Hload.
    + exists s0. split; [now left|]. split; [exact Hc0|]. split; [exact Hfs0|].
      reflexivity.
  - assert (Hrest : In s rest) by (destruct Hs as [<-|Hs]; [congruence | exact Hs]).
    destruct (IH s Hrest Hc Hfs) as (s' & Hin & Hc' & Hfs' & Hload).
    exists s'. split; [now right|]. split; [exact Hc'|]. split; [exact Hfs'|].
    simpl. now rewrite Hload.
Qed.

(** C7. Loading with trained models fails when the schema does not parse,
    and fails, raising the error that names the missing file, when the
    parsed schema has a classifier slot for which the file
    [os.path.join(folder, id + '.model')] does not exist: no slot is
    returned on which inference could be attempted. [load_model] on a path
    that does not exist raises an error of its own that names the path, an
    error other than the no-model error of resolution. *)
Theorem missing_artifact_fails_at_load :
  forall (feed : tokenizer) (fs : filesystem) (folder : string) (rows : list (list string)),
    (forall slots s,
        read_slots_from_tsv feed rows = Ok slots ->
        In s slots ->
        is_ClassifierSlot s = true ->
        fs (os_path_join folder (slot_id s ++ ".model")%string) = None ->
        exists s',
          In s' slots
          /\ is_ClassifierSlot s' = true
          /\ fs (os_path_join folder (slot_id s' ++ ".model")%string) = None
          /\ read_slots_serialized feed fs folder rows
             = Raise (Exception_
                        (os_path_join folder (slot_id s' ++ ".model")
                         ++ " does not exist")%string))
    /\ (forall e,
          read_slots_from_tsv feed rows = Raise e ->
          read_slots_serialized feed fs folder rows = Raise e)
    /\ (forall s model_path,
          fs model_path = None ->
          load_model fs s model_path
          = Raise (Exception_ ("Model path: '" ++ model_path ++ "' doesnt exist")%string)
          /\ load_model fs s model_path <> Raise no_model).
Proof.
  intros feed fs folder rows. split; [|split].
  - intros slots s Hread Hs Hc Hfs. unfold read_slots_serialized. rewrite Hread. simpl.
    now apply load_models_missing_artifact with (s := s).
  - intros e Hread. unfold read_slots_serialized. now rewrite Hread.
  - intros s model_path Hfs. unfold load_model. rewrite Hfs. split; [reflexivity|].
    discriminate.
Qed.

(** A classifier block loaded against a folder without files. *)
Lemma missing_artifact_fails_at_load_witness :
  exists s',
    In s' [ClassifierSlot repeat_attrs "yes" None]
    /\ is_ClassifierSlot s' = true
    /\ empty_fs (os_path_join "art" (slot_id s' ++ ".model")%string) = None
    /\ read_slots_serialized ws_tokenizer empty_fs "art"
         [["repeat.ClassifierSlot"; "Again?"]; ["yes"]]
       = Raise (Exception_
                  (os_path_join "art" (slot_id s' ++ ".model") ++ " does not exist")%string).
Proof.
  exact (proj1 (missing_artifact_fails_at_load ws_tokenizer empty_fs "art"
                  [["repeat.ClassifierSlot"; "Again?"]; ["yes"]])
           [ClassifierSlot repeat_attrs "yes" None]
           (ClassifierSlot repeat_attrs "yes" None)
           eq_refl (or_introl eq_refl) eq_refl eq_refl).
Defined.

Example missing_artifact_message :
  read_slots_serialized ws_tokenizer empty_fs "art"
    [["repeat.ClassifierSlot"; "Again?"]; ["yes"]]
  = Raise (Exception_ "art/repeat.model does not exist").
Proof. reflexivity. Qed.

(** * Further properties of the module *)

(** ** Loading with trained models: the successful case *)

Lemma load_models_attaches : forall fs folder slots slots',
  load_models fs folder slots = Ok slots' ->
  Forall2 (model_attached fs folder) slots slots'.
Proof.
  intros fs folder. induction slots as [|s rest IH]; intros slots' H; simpl in H.
  - injection H as <-. constructor.
  - destruct (is_ClassifierSlot s) eqn:Hc.
    + destruct s; try discriminate. simpl in H.
      destruct (fs (os_path_join folder (slot_id (ClassifierSlot self true_ model_) ++ ".model")%string))
        as [m|] eqn:Hfs; [|discriminate].
      unfold load_model in H. rewrite Hfs in H. simpl in H.
      destruct (load_models fs folder rest) as [rest'|e] eqn:Hrest; simpl in H; [|discriminate].
      injection H as <-. constructor; [|now apply IH].
      simpl. exists m. split; [exact Hfs | reflexivity].
    + simpl in H.
      destruct (load_models fs folder rest) as [rest'|e] eqn:Hrest; simpl in H; [|discriminate].
      injection H as <-. constructor; [|now apply IH].
      destruct s; try discriminate; reflexivity.
Qed.

(** X1. When loading with trained models returns, the schema has parsed and
    the result is the parsed list, slot by slot and in the same order, in
    which each classifier slot carries the model read from
    [os.path.join(folder, id + '.model')], a file that exists, and every
    other slot is unchanged. *)
Theorem read_slots_serialized_attaches_models :
  forall (feed : tokenizer) (fs : filesystem) (folder : string)
         (rows : list (list string)) (slots' : list slot),
    read_slots_serialized feed fs folder rows = Ok slots' ->
    exists slots,
      read_slots_from_tsv feed rows = Ok slots
      /\ Forall2 (model_attached fs folder) slots slots'.
Proof.
  intros feed fs folder rows slots'. unfold read_slots_serialized.
  destruct (read_slots_from_tsv feed rows) as [slots|e]; simpl; [|discriminate].
  intros H. exists slots. split; [reflexivity|]. now apply load_models_attaches.
Qed.

(** The classifier block of the running example, read with its artifact. *)
Lemma read_slots_serialized_attaches_models_witness :
  exists slots,
    read_slots_from_tsv ws_tokenizer [["repeat.ClassifierSlot"; "Again?"]; ["yes"]]
    = Ok slots
    /\ Forall2 (model_attached repeat_fs "art") slots
         [ClassifierSlot repeat_attrs "yes" (Some approving_model)].
Proof.
  exact (@read_slots_serialized_attaches_models ws_tokenizer repeat_fs "art"
           [["repeat.ClassifierSlot"; "Again?"]; ["yes"]]
           [ClassifierSlot repeat_attrs "yes" (Some approving_model)] eq_refl).
Defined.

(** ** Slots as the loader constructs them *)

Lemma construct_fresh : forall class a prev s,
  construct class a prev [] = Ok s -> freshly_constructed s.
Proof.
  intros class a prev s. unfold construct.
  repeat match goal with
         | |- context [String.eqb class ?c] => destruct (String.eqb class c)
         end;
    try (intros [= <-]; exact I); try discriminate.
  - unfold ClassifierSlot_init. destruct (values_order a) as [|t rest] eqn:Ho; [discriminate|].
    intros [= <-]. simpl. split; [reflexivity | now exists rest].
  - simpl. intros [= <-]. reflexivity.
Qed.

Lemma loaded_slots_fresh : forall feed rows slots s,
  read_slots_from_tsv feed rows = Ok slots -> In s slots -> freshly_constructed s.
Proof.
  intros feed rows slots s Hread Hs.
  apply (loaded_slots_invariant feed (fun _ => True) freshly_constructed)
    with (rows := rows) (slots := slots); auto.
  intros st name s0 _ _ Hcons. now apply construct_fresh in Hcons.
Qed.

(** X3. Every classifier slot that [read_slots_from_tsv] returns has no
    model, and its true label is the first canonical name of its block; a
    classifier block without value rows does not load: closing it raises
    [IndexError]. *)
Theorem loaded_classifier_true_label :
  forall (feed : tokenizer),
    (forall rows slots self true_ model_,
        read_slots_from_tsv feed rows = Ok slots ->
        In (ClassifierSlot self true_ model_) slots ->
        model_ = None /\ exists rest, values_order self = true_ :: rest)
    /\ (forall pre post st name,
          loader_run feed loader_init pre = Ok st ->
          slot_name st = Some name ->
          slot_class st = "ClassifierSlot" ->
          normal_names_order st = [] ->
          read_slots_from_tsv feed (pre ++ [] :: post) = Raise IndexError).
Proof.
  intros feed. split.
  - intros rows slots self true_ model_ Hread Hs.
    exact (@loaded_slots_fresh feed rows slots _ Hread Hs).
  - intros pre post st name Hrun Hname Hclass Horder.
    unfold read_slots_from_tsv. rewrite loader_run_app, Hrun. simpl.
    unfold loader_step. rewrite Hname. simpl.
    unfold blank_row, make_slot. rewrite Hclass, Horder. reflexivity.
Qed.

(** A classifier header followed at once by a blank row. *)
Lemma loaded_classifier_true_label_witness :
  read_slots_from_tsv ws_tokenizer [["repeat.ClassifierSlot"; "Again?"]; []]
  = Raise IndexError.
Proof.
  exact (proj2 (loaded_classifier_true_label ws_tokenizer)
           [["repeat.ClassifierSlot"; "Again?"]] []
           {| slot_name := Some "repeat"; slot_class := "ClassifierSlot"; args := [];
              info_question := "Again?"; normal_names_order := [];
              generative_slot_values := []; nongenerative_slot_values := [];
              result_slots := [] |}
           "repeat" eq_refl eq_refl eq_refl eq_refl).
Defined.

(** ** Rows that the loader refuses *)

Lemma split_char_not_nil : forall c s, PyStr.split_char c s <> [].
Proof.
  intros c s. destruct s as [|a rest]; simpl; [discriminate|].
  destruct (Ascii.eqb a c); [discriminate|].
  destruct (PyStr.split_char c rest); discriminate.
Qed.

(** A word without the separator is not cut. *)
Lemma split_char_without_separator : forall c s,
  ~ In c (list_ascii_of_string s) -> PyStr.split_char c s = [s].
Proof.
  intros c. induction s as [|a rest IH]; intros H; [reflexivity|].
  simpl in *. destruct (Ascii.eqb_spec a c) as [->|Hne].
  - exfalso. apply H. now left.
  - rewrite IH; [reflexivity|]. intros Hin. apply H. now right.
Qed.

(** A word with the separator is cut in two parts at least. *)
Lemma split_char_with_separator : forall c s,
  In c (list_ascii_of_string s) ->
  exists first second others, PyStr.split_char c s = first :: second :: others.
Proof.
  intros c. induction s as [|a rest IH]; intros H; [contradiction|].
  simpl in *. destruct (Ascii.eqb_spec a c) as [->|Hne].
  - pose proof (split_char_not_nil c rest) as Hn.
    destruct (PyStr.split_char c rest) as [|w ws]; [contradiction|].
    now exists "", w, ws.
  - destruct H as [H|H]; [contradiction|].
    destruct (IH H) as (first & second & others & ->).
    now exists (String a first), second, others.
Qed.

(** X5. Where the loader expects a header, it raises [IndexError] on a row
    without cells (a blank line after a closed block or at the start of the
    file), on a row whose first cell holds no word, and on a row with a
    dotted first word and no second cell; it raises [ValueError] on a row
    whose first word has no dot. Inside a block, a row of more than three
    cells that is not blank raises the bare [Exception]. *)
Theorem malformed_rows_rejected :
  forall (feed : tokenizer) (pre post : list (list string)) (st : loader),
    loader_run feed loader_init pre = Ok st ->
    (slot_name st = None ->
     read_slots_from_tsv feed (pre ++ [] :: post) = Raise IndexError
     /\ (forall cell cells,
           PyStr.split_ws cell = [] ->
           read_slots_from_tsv feed (pre ++ (cell :: cells) :: post) = Raise IndexError)
     /\ (forall cell cells word words,
           PyStr.split_ws cell = word :: words ->
           ~ In dot (list_ascii_of_string word) ->
           read_slots_from_tsv feed (pre ++ (cell :: cells) :: post) = Raise ValueError)
     /\ (forall cell word words,
           PyStr.split_ws cell = word :: words ->
           In dot (list_ascii_of_string word) ->
           read_slots_from_tsv feed (pre ++ [cell] :: post) = Raise IndexError))
    /\ (slot_name st <> None ->
        forall c1 c2 c3 c4 cells,
          PyStr.concat_all (c1 :: c2 :: c3 :: c4 :: cells) <> "" ->
          read_slots_from_tsv feed (pre ++ (c1 :: c2 :: c3 :: c4 :: cells) :: post)
          = Raise (Exception_ "")).
Proof.
  intros feed pre post st Hrun.
  assert (Hfail : forall row e,
             loader_step feed st row = Raise e ->
             read_slots_from_tsv feed (pre ++ row :: post) = Raise e).
  { intros row e Hstep. unfold read_slots_from_tsv.
    rewrite loader_run_app, Hrun. simpl. now rewrite Hstep. }
  split.
  - intros Hname. repeat split.
    + apply Hfail. unfold loader_step. now rewrite Hname.
    + intros cell cells Hw. apply Hfail. unfold loader_step. rewrite Hname.
      unfold header_row. simpl. now rewrite Hw.
    + intros cell cells word words Hw Hdot. apply Hfail.
      unfold loader_step. rewrite Hname. unfold header_row. simpl. rewrite Hw. simpl.
      now rewrite (split_char_without_separator _ _ Hdot).
    + intros cell word words Hw Hdot. apply Hfail.
      unfold loader_step. rewrite Hname. unfold header_row. simpl. rewrite Hw. simpl.
      destruct (split_char_with_separator _ _ Hdot) as (first & second & others & ->).
      reflexivity.
  - intros Hname c1 c2 c3 c4 cells Hrow. apply Hfail.
    unfold loader_step. destruct (slot_name st) as [name|]; [|congruence].
    destruct (String.eqb_spec (PyStr.concat_all (c1 :: c2 :: c3 :: c4 :: cells)) "");
      [contradiction|].
    reflexivity.
Qed.

(** A second blank line after the currency block. *)
Lemma malformed_rows_rejected_witness :
  read_slots_from_tsv ws_tokenizer
    [["cur.CurrencySlot"; "Which currency?"]; ["rub"]; []; []]
  = Raise IndexError.
Proof.
  exact (proj1 (proj1 (@malformed_rows_rejected ws_tokenizer
                         [["cur.CurrencySlot"; "Which currency?"]; ["rub"]; []] []
                         {| slot_name := None; slot_class := "CurrencySlot"; args := [];
                            info_question := "Which currency?";
                            normal_names_order := ["rub"];
                            generative_slot_values := []; nongenerative_slot_values := [];
                            result_slots :=
                              [CurrencySlot
                                 (DictionarySlot_init "cur" "Which currency?"
                                    [("rub", "rub")] [] ["rub"])
                                 ["rub"; "eur"; "usd"]] |}
                         eq_refl) eq_refl)).
Defined.

(** A header cell that holds a no-break space only has no word, and a
    no-break space ends the first word of a header. *)
Example header_of_no_break_space :
  PyStr.split_ws no_break_space = []
  /\ read_slots_from_tsv ws_tokenizer [[no_break_space; "q"]] = Raise IndexError
  /\ PyStr.split_ws ("a" ++ no_break_space ++ "b.X")%string = ["a"; "b.X"]
  /\ read_slots_from_tsv ws_tokenizer [[("a" ++ no_break_space ++ "b.X")%string]]
     = Raise ValueError.
Proof. repeat split. Qed.

(** ** Entry points *)

Lemma first_resolved_app : forall l1 l2,
  first_resolved (l1 ++ l2)
  = match first_resolved l1 with
    | Ok None => first_resolved l2
    | r => r
    end.
Proof.
  induction l1 as [|r l1 IH]; intros l2; simpl.
  - destruct (first_resolved l2) as [[v|]|e]; reflexivity.
  - destruct r as [[v|]|e]; [reflexivity | apply IH | reflexivity].
Qed.

(** X6. On a slot in which no classifier slot occurs, at any depth of
    composition, the two entry points answer the same for every input. *)
Theorem entry_points_agree_without_classifier :
  forall (partial_ratio : scorer) (get_json : recognizer) (s : slot) (text : list token),
    classifier_free s = true ->
    infer_from_compositional_request partial_ratio get_json s text
    = infer_from_single_slot partial_ratio get_json s text.
Proof.
  intros partial_ratio get_json s text. revert s.
  apply (@slot_induction
           (fun s => classifier_free s = true ->
                     infer_from_compositional_request partial_ratio get_json s text
                     = infer_from_single_slot partial_ratio get_json s text));
    try reflexivity.
  - intros a t m H. discriminate.
  - intros a children IH Hfree.
    rewrite compositional_request_children, compositional_single_children.
    f_equal. simpl in Hfree. induction IH as [|c rest Hc _ IHrest]; [reflexivity|].
    simpl in Hfree. apply andb_prop in Hfree. destruct Hfree as [Hc' Hrest].
    simpl. rewrite (Hc Hc'), (IHrest Hrest). reflexivity.
Qed.

(** A composite over a dictionary slot and a composite over a geo slot. *)
Lemma entry_points_agree_without_classifier_witness :
  infer_from_compositional_request containment_ratio silent_recognizer
    (CompositionalSlot method_attrs
       [DictionarySlot payment_attrs; CompositionalSlot method_attrs [GeoSlot plastic_attrs]])
    [Token "card"]
  = infer_from_single_slot containment_ratio silent_recognizer
      (CompositionalSlot method_attrs
         [DictionarySlot payment_attrs; CompositionalSlot method_attrs [GeoSlot plastic_attrs]])
      [Token "card"].
Proof.
  exact (@entry_points_agree_without_classifier containment_ratio silent_recognizer
           (CompositionalSlot method_attrs
              [DictionarySlot payment_attrs;
               CompositionalSlot method_attrs [GeoSlot plastic_attrs]])
           [Token "card"] eq_refl).
Defined.

(** X7. A compositional slot among the children of a compositional slot
    resolves as if its own children stood in its place: on both entry points
    the composite over [pre ++ [CompositionalSlot b inner] ++ post] answers
    what the composite over [pre ++ inner ++ post] answers. *)
Theorem nested_composite_flattens :
  forall (partial_ratio : scorer) (get_json : recognizer) (a b : attrs)
         (pre inner post : list slot) (text : list token),
    infer_from_compositional_request partial_ratio get_json
      (CompositionalSlot a (pre ++ CompositionalSlot b inner :: post)) text
    = infer_from_compositional_request partial_ratio get_json
        (CompositionalSlot a (pre ++ inner ++ post)) text
    /\ infer_from_single_slot partial_ratio get_json
         (CompositionalSlot a (pre ++ CompositionalSlot b inner :: post)) text
       = infer_from_single_slot partial_ratio get_json
           (CompositionalSlot a (pre ++ inner ++ post)) text.
Proof.
  intros partial_ratio get_json a b pre inner post text. split.
  - rewrite !compositional_request_children, !map_app, !first_resolved_app.
    change (map (fun c => infer_from_compositional_request partial_ratio get_json c text)
              (CompositionalSlot b inner :: post))
      with ([infer_from_compositional_request partial_ratio get_json
               (CompositionalSlot b inner) text]
            ++ map (fun c => infer_from_compositional_request partial_ratio get_json c text)
                 post).
    rewrite first_resolved_app, compositional_request_children.
    destruct (first_resolved
                (map (fun c => infer_from_compositional_request partial_ratio get_json c text)
                   pre)) as [[v|]|e]; try reflexivity.
    simpl.
    destruct (first_resolved
                (map (fun c => infer_from_compositional_request partial_ratio get_json c text)
                   inner)) as [[v|]|e]; reflexivity.
  - rewrite !compositional_single_children, !map_app, !first_resolved_app.
    change (map (fun c => infer_from_single_slot partial_ratio get_json c text)
              (CompositionalSlot b inner :: post))
      with ([infer_from_single_slot partial_ratio get_json (CompositionalSlot b inner) text]
            ++ map (fun c => infer_from_single_slot partial_ratio get_json c text) post).
    rewrite first_resolved_app, compositional_single_children.
    destruct (first_resolved
                (map (fun c => infer_from_single_slot partial_ratio get_json c text) pre))
      as [[v|]|e]; try reflexivity.
    simpl.
    destruct (first_resolved
                (map (fun c => infer_from_single_slot partial_ratio get_json c text) inner))
      as [[v|]|e]; reflexivity.
Qed.

(** ** Classifier slots with a model *)

(** X8. A classifier slot as its constructor leaves it, once [load_model]
    has read an existing artifact, answers on the compositional-request
    entry point with its true label, the first canonical name, when the
    model labels the text as true, and with [None] when it labels it as
    false; an exception of the model propagates. Its single-slot entry point
    still answers what base dictionary resolution answers. *)
Theorem classifier_resolves_after_load :
  forall (partial_ratio : scorer) (get_json : recognizer) (fs : filesystem)
         (a : attrs) (s : slot) (model_path : string) (m : model) (text : list token),
    ClassifierSlot_init a = Ok s ->
    fs model_path = Some m ->
    exists true_ rest s',
      values_order a = true_ :: rest
      /\ load_model fs s model_path = Ok s'
      /\ infer_from_compositional_request partial_ratio get_json s' text
         = (label <- m text ;; Ok (if label : bool then Some true_ else None))
      /\ infer_from_single_slot partial_ratio get_json s' text
         = Ok (_infer partial_ratio a text).
Proof.
  intros partial_ratio get_json fs a s model_path m text Hinit Hfs.
  unfold ClassifierSlot_init in Hinit.
  destruct (values_order a) as [|t rest] eqn:Ho; [discriminate|].
  injection Hinit as <-.
  exists t, rest, (ClassifierSlot a t (Some m)).
  split; [reflexivity|]. split; [unfold load_model; now rewrite Hfs|].
  split; reflexivity.
Qed.

(** The slot [repeat] with the model of its artifact. *)
Lemma classifier_resolves_after_load_witness :
  exists true_ rest s',
    values_order repeat_attrs = true_ :: rest
    /\ load_model repeat_fs (ClassifierSlot repeat_attrs "yes" None) "art/repeat.model" = Ok s'
    /\ infer_from_compositional_request containment_ratio silent_recognizer s'
         [Token "once"; Token "more"]
       = (label <- approving_model [Token "once"; Token "more"] ;;
          Ok (if label : bool then Some true_ else None))
    /\ infer_from_single_slot containment_ratio silent_recognizer s'
         [Token "once"; Token "more"]
       = Ok (_infer containment_ratio repeat_attrs [Token "once"; Token "more"]).
Proof.
  exact (@classifier_resolves_after_load containment_ratio silent_recognizer repeat_fs
           repeat_attrs (ClassifierSlot repeat_attrs "yes" None) "art/repeat.model"
           approving_model [Token "once"; Token "more"] eq_refl eq_refl).
Defined.

(** ** Filters *)

(** X9. Whatever value a classifier slot answers on the
    compositional-request entry point is accepted by the filter [true] of
    the slot and refused by its filter [false], in every context. *)
Theorem classifier_answer_passes_true_filter :
  forall (partial_ratio : scorer) (get_json : recognizer) (a : attrs) (true_ : string)
         (model_ : option model) (text : list token) (v context : string),
    infer_from_compositional_request partial_ratio get_json
      (ClassifierSlot a true_ model_) text = Ok (Some v) ->
    exists f g,
      get_filter (ClassifierSlot a true_ model_) "true" = Ok f
      /\ get_filter (ClassifierSlot a true_ model_) "false" = Ok g
      /\ f v context = true
      /\ g v context = false.
Proof.
  intros partial_ratio get_json a true_ model_ text v context H.
  simpl in H. destruct model_ as [m|]; [|discriminate].
  destruct (m text) as [[|]|e]; simpl in H; try discriminate.
  injection H as <-.
  exists (fun x _ => String.eqb x true_), (fun x _ => negb (String.eqb x true_)).
  repeat split; simpl; now rewrite String.eqb_refl.
Qed.

Lemma classifier_answer_passes_true_filter_witness :
  exists f g,
    get_filter (ClassifierSlot repeat_attrs "yes" (Some approving_model)) "true" = Ok f
    /\ get_filter (ClassifierSlot repeat_attrs "yes" (Some approving_model)) "false" = Ok g
    /\ f "yes" "" = true
    /\ g "yes" "" = false.
Proof.
  exact (@classifier_answer_passes_true_filter containment_ratio silent_recognizer
           repeat_attrs "yes" (Some approving_model) [Token "again"] "yes" "" eq_refl).
Defined.

Lemma is_in_In : forall x l, is_in x l = true <-> In x l.
Proof.
  intros x l. unfold is_in. rewrite existsb_exists. split.
  - intros (y & Hy & Heq). apply String.eqb_eq in Heq. now subst.
  - intros H. exists x. split; [exact H | apply String.eqb_refl].
Qed.

Lemma get_filter_unregistered : forall s name,
  ~ In name (map fst (filters s)) -> get_filter s name = Raise (KeyError name).
Proof.
  intros s name H. unfold get_filter.
  destruct (find (fun entry => String.eqb (fst entry) name) (filters s)) as [entry|] eqn:Hf;
    [|reflexivity].
  apply find_some in Hf. destruct Hf as [Hin Heq]. apply String.eqb_eq in Heq.
  exfalso. apply H. rewrite <- Heq. now apply in_map.
Qed.

(** X10. Every slot registers the filters [any], [eq] and [not_eq]: [any]
    accepts every value, [eq] accepts a value exactly when it equals the
    context, and [not_eq] is its negation. A currency slot registers in
    addition [supported_currency], which accepts exactly the members of its
    supported set, and [not_supported_currency], its negation; the supported
    set of a currency slot that the loader returns is [rub], [eur], [usd].
    Looking up a name that the slot does not register raises [KeyError]. *)
Theorem filter_registry :
  forall (s : slot) (x y : string),
    (exists any eq ne,
        get_filter s "any" = Ok any
        /\ get_filter s "eq" = Ok eq
        /\ get_filter s "not_eq" = Ok ne
        /\ any x y = true
        /\ (eq x y = true <-> x = y)
        /\ ne x y = negb (eq x y))
    /\ (forall a supported,
          s = CurrencySlot a supported ->
          exists f g,
            get_filter s "supported_currency" = Ok f
            /\ get_filter s "not_supported_currency" = Ok g
            /\ (f x y = true <-> In x supported)
            /\ g x y = negb (f x y))
    /\ (forall feed rows slots a supported,
          read_slots_from_tsv feed rows = Ok slots ->
          In s slots ->
          s = CurrencySlot a supported ->
          supported = ["rub"; "eur"; "usd"])
    /\ (forall name,
          ~ In name (map fst (filters s)) -> get_filter s name = Raise (KeyError name)).
Proof.
  intros s x y. split; [|split; [|split]].
  - exists (fun _ _ => true), (fun x y => String.eqb x y),
      (fun x y => negb (String.eqb x y)).
    destruct s; repeat split; try (apply String.eqb_eq).
  - intros a supported ->.
    exists (fun x _ => is_in x supported), (fun x _ => negb (is_in x supported)).
    repeat split; apply is_in_In.
  - intros feed rows slots a supported Hread Hs Heq.
    apply (@loaded_slots_invariant feed (fun _ => True)
             (fun s => forall a supported,
                  s = CurrencySlot a supported -> supported = ["rub"; "eur"; "usd"]))
      with (rows := rows) (slots := slots) (s := s) (a := a); auto.
    intros st name s0 _ _ Hcons a0 supported0 Hs0. subst s0.
    unfold construct in Hcons.
    repeat match type of Hcons with
           | context [String.eqb ?c ?d] => destruct (String.eqb c d)
           end; try discriminate; try (injection Hcons as _ <-; reflexivity).
    + unfold ClassifierSlot_init in Hcons. destruct (values_order _); discriminate.
  - apply get_filter_unregistered.
Qed.

(** ** What a value row writes *)

Lemma dict_get_set_same : forall (d : dict) k v, dict_get (dict_set d k v) k = Some v.
Proof.
  induction d as [|[k0 v0] d IH]; intros k v; simpl.
  - now rewrite String.eqb_refl.
  - destruct (String.eqb_spec k0 k) as [->|Hne]; simpl.
    + now rewrite String.eqb_refl.
    + destruct (String.eqb_spec k0 k); [contradiction | apply IH].
Qed.

Lemma dict_get_set_other : forall (d : dict) k v k',
  k' <> k -> dict_get (dict_set d k v) k' = dict_get d k'.
Proof.
  induction d as [|[k0 v0] d IH]; intros k v k' Hne; simpl.
  - destruct (String.eqb_spec k k'); [congruence | reflexivity].
  - destruct (String.eqb_spec k0 k) as [->|Hne0]; simpl.
    + destruct (String.eqb_spec k k'); [congruence | reflexivity].
    + destruct (String.eqb_spec k0 k'); [reflexivity | now apply IH].
Qed.

Section ValueRowFacts.

Variable feed : tokenizer.

Lemma set_all_keeps : forall syns d n k,
  dict_get d k = Some n -> dict_get (set_all feed d syns n) k = Some n.
Proof.
  unfold set_all. induction syns as [|s syns IH]; intros d n k H; [exact H|].
  simpl. apply IH. destruct (String.eqb_spec k (pipe feed s)) as [->|Hne].
  - apply dict_get_set_same.
  - now rewrite dict_get_set_other.
Qed.

Lemma set_all_member : forall syns d n s,
  In s syns -> dict_get (set_all feed d syns n) (pipe feed s) = Some n.
Proof.
  induction syns as [|s0 syns IH]; intros d n s H; [contradiction|].
  destruct H as [->|H].
  - change (set_all feed d (s :: syns) n)
      with (set_all feed (dict_set d (pipe feed s) n) syns n).
    apply set_all_keeps. apply dict_get_set_same.
  - change (set_all feed d (s0 :: syns) n)
      with (set_all feed (dict_set d (pipe feed s0) n) syns n).
    now apply IH.
Qed.

Lemma set_all_other : forall syns d n k,
  (forall s, In s syns -> pipe feed s <> k) ->
  dict_get (set_all feed d syns n) k = dict_get d k.
Proof.
  induction syns as [|s0 syns IH]; intros d n k H; [reflexivity|].
  change (set_all feed d (s0 :: syns) n)
    with (set_all feed (dict_set d (pipe feed s0) n) syns n).
  rewrite IH by (intros s Hs; apply H; now right).
  apply dict_get_set_other. intros ->. apply (H s0); [now left | reflexivity].
Qed.

End ValueRowFacts.

(** X11. After a value row is read, the normalized canonical name of the
    row is bound to itself in the generative dictionary and is among the
    canonical names, every generative synonym of the row is bound to the name
    in the generative dictionary, and every nongenerative synonym is bound
    to it in the nongenerative dictionary; a key that is no normalized form
    of the row keeps the binding it had. A row with fewer than three cells
    is read as the row padded with empty cells. *)
Theorem value_row_binds_surface_forms :
  forall (feed : tokenizer) (st st' : loader) (n g ng : string),
    value_row feed st [n; g; ng] = Ok st' ->
    dict_get (generative_slot_values st') (pipe feed n) = Some (pipe feed n)
    /\ In (pipe feed n) (normal_names_order st')
    /\ (forall s, In s (split_syns g) ->
          dict_get (generative_slot_values st') (pipe feed s) = Some (pipe feed n))
    /\ (forall s, In s (split_syns ng) ->
          dict_get (nongenerative_slot_values st') (pipe feed s) = Some (pipe feed n))
    /\ (forall k, k <> pipe feed n ->
          (forall s, In s (split_syns g) -> pipe feed s <> k) ->
          dict_get (generative_slot_values st') k = dict_get (generative_slot_values st) k)
    /\ (forall k, (forall s, In s (split_syns ng) -> pipe feed s <> k) ->
          dict_get (nongenerative_slot_values st') k
          = dict_get (nongenerative_slot_values st) k)
    /\ value_row feed st [n] = value_row feed st [n; ""; ""]
    /\ value_row feed st [n; g] = value_row feed st [n; g; ""].
Proof.
  intros feed st st' n g ng H.
  assert (Hrow : exists n0 g0 ng0, [n; g; ng] = [n0; g0; ng0]) by now exists n, g, ng.
  unfold value_row in H. simpl in H.
  destruct (match split_syns ng with
            | [] => Ok tt
            | _ :: _ =>
                match split_syns g with
                | [] => Ok tt
                | _ :: _ =>
                    if intersects (split_syns ng) (split_syns g)
                    then Raise AssertionError else Ok tt
                end
            end); simpl in H; [|discriminate].
  injection H as <-. simpl.
  split; [apply set_all_keeps, dict_get_set_same|].
  split; [apply in_or_app; right; now left|].
  split; [intros s Hs; now apply set_all_member|].
  split; [intros s Hs; now apply set_all_member|].
  split.
  { intros k Hk Hs. rewrite set_all_other by exact Hs. now apply dict_get_set_other. }
  split; [intros k Hs; now apply set_all_other|].
  split; reflexivity.
Qed.

(** The row [usd, dollars] read into an open block. *)
Lemma value_row_binds_surface_forms_witness :
  dict_get
    (set_all ws_tokenizer (dict_set [("rub", "rub")] "usd" "usd") ["dollars"] "usd")
    (pipe ws_tokenizer "dollars")
  = Some (pipe ws_tokenizer "usd").
Proof.
  exact (proj1 (proj2 (proj2
           (@value_row_binds_surface_forms ws_tokenizer
              {| slot_name := Some "cur"; slot_class := "CurrencySlot"; args := [];
                 info_question := "Which currency?"; normal_names_order := ["rub"];
                 generative_slot_values := [("rub", "rub")];
                 nongenerative_slot_values := []; result_slots := [] |}
              _ "usd" "dollars" "" eq_refl)))
           "dollars" (or_introl eq_refl)).
Defined.

(** ** The constructor of compositional slots *)

Lemma slotmap_lookup_ok : forall prev name s,
  slotmap_lookup prev name = Ok s -> In s prev /\ slot_id s = name.
Proof.
  intros prev name s. unfold slotmap_lookup.
  destruct (find (fun s0 => String.eqb (slot_id s0) name) (rev prev)) as [s0|] eqn:Hf;
    [|discriminate].
  intros [= <-]. apply find_some in Hf. destruct Hf as [Hin Heq].
  split; [now apply in_rev | now apply String.eqb_eq].
Qed.

Lemma slotmap_lookup_raise : forall prev name e,
  slotmap_lookup prev name = Raise e ->
  e = KeyError name /\ ~ In name (map slot_id prev).
Proof.
  intros prev name e. unfold slotmap_lookup.
  destruct (find (fun s0 => String.eqb (slot_id s0) name) (rev prev)) as [s0|] eqn:Hf;
    [discriminate|].
  intros [= <-]. split; [reflexivity|]. intros Hin.
  apply in_map_iff in Hin. destruct Hin as (s & Hid & Hs).
  apply in_rev in Hs. pose proof (find_none _ _ Hf s Hs) as Hn. simpl in Hn.
  rewrite Hid, String.eqb_refl in Hn. discriminate.
Qed.

(** X12. Given child names, the constructor of a compositional slot either
    returns a slot whose children are previously created slots with exactly
    the named ids, in the order of the names, or raises [KeyError] for a name
    that is the id of no previously created slot; it returns when every name
    is such an id. Of two previously created slots with one id, the later
    one becomes the child. *)
Theorem compositional_init_children :
  forall (a : attrs) (prev : list slot) (names : list string),
    (forall s,
        CompositionalSlot_init a prev names = Ok s ->
        exists children,
          s = CompositionalSlot a children
          /\ map slot_id children = names
          /\ (forall c, In c children -> In c prev))
    /\ (forall e,
          CompositionalSlot_init a prev names = Raise e ->
          exists name, e = KeyError name /\ In name names /\ ~ In name (map slot_id prev))
    /\ ((forall name, In name names -> In name (map slot_id prev)) ->
        exists s, CompositionalSlot_init a prev names = Ok s)
    /\ (forall c, CompositionalSlot_init a (prev ++ [c]) [slot_id c]
                  = Ok (CompositionalSlot a [c])).
Proof.
  intros a prev names.
  assert (Hok : forall children,
             lookup_children prev names = Ok children ->
             map slot_id children = names /\ (forall c, In c children -> In c prev)).
  { induction names as [|name rest IH]; intros children H; simpl in H.
    - injection H as <-. split; [reflexivity | intros c []].
    - destruct (slotmap_lookup prev name) as [c|e] eqn:Hc; simpl in H; [|discriminate].
      destruct (lookup_children prev rest) as [cs|e] eqn:Hcs; simpl in H; [|discriminate].
      injection H as <-. apply slotmap_lookup_ok in Hc. destruct Hc as [Hin Hid].
      destruct (IH cs eq_refl) as [Hids Hprev]. split.
      + simpl. now rewrite Hid, Hids.
      + intros c' [<-|Hc']; [exact Hin | now apply Hprev]. }
  assert (Hraise : forall e,
             lookup_children prev names = Raise e ->
             exists name, e = KeyError name /\ In name names
                          /\ ~ In name (map slot_id prev)).
  { clear Hok. induction names as [|name rest IH]; intros e H; simpl in H; [discriminate|].
    destruct (slotmap_lookup prev name) as [c|e0] eqn:Hc; simpl in H.
    - destruct (lookup_children prev rest) as [cs|e1] eqn:Hcs; simpl in H; [discriminate|].
      injection H as <-. destruct (IH e1 eq_refl) as (nm & He & Hin & Hnot).
      exists nm. repeat split; auto. now right.
    - injection H as <-. apply slotmap_lookup_raise in Hc. destruct Hc as [-> Hnot].
      exists name. repeat split; auto. now left. }
  split; [|split; [|split]].
  - intros s H. unfold CompositionalSlot_init in H.
    destruct (lookup_children prev names) as [children|e] eqn:Hl; simpl in H; [|discriminate].
    injection H as <-. exists children. destruct (Hok children eq_refl). auto.
  - intros e H. unfold CompositionalSlot_init in H.
    destruct (lookup_children prev names) as [children|e0] eqn:Hl; simpl in H; [discriminate|].
    injection H as <-. now apply Hraise.
  - intros Hall. unfold CompositionalSlot_init.
    destruct (lookup_children prev names) as [children|e] eqn:Hl; simpl; [eauto|].
    destruct (Hraise e eq_refl) as (nm & _ & Hin & Hnot). exfalso. apply Hnot. now apply Hall.
  - intros c. unfold CompositionalSlot_init. simpl. unfold slotmap_lookup.
    rewrite rev_app_distr. simpl. now rewrite String.eqb_refl.
Qed.

(** ** Dialog turns *)

(** Decides a membership in a response by the first character of the line. *)
Ltac by_first_character H :=
  unfold with_debug, debug_message, newline in H;
  repeat match type of H with
         | context [if ?b then _ else _] => destruct b
         end;
  simpl in H;
  repeat match type of H with
         | _ \/ _ => destruct H as [H|H]
         end;
  try discriminate; try contradiction;
  try (apply in_map_iff in H; destruct H as (? & H & _); discriminate).

Section TurnFacts.

Variable NLU : Type.
Variable Geo : Type.
Variable Expect : Type.
Variable c : collaborators NLU Geo Expect.

(** The cases of a turn on a text message that returns. *)
Lemma generate_response_cases : forall self client_utterance t,
  PyStr.startswith "__geo__" client_utterance = false ->
  generate_response c self client_utterance = Ok t ->
  (exists e, t = {| response := ["NLU ERROR: " ++ e]%string; dialog := self;
                    expectation := None |})
  \/ (exists nlu_result faq_answer faq_response chat_response,
         faq c client_utterance = Ok (faq_answer, faq_response)
         /\ chat c client_utterance = Ok chat_response
         /\ dialog t
            = {| debug := debug self; patience := patience self;
                 impatience := if uninformative c nlu_result faq_answer
                               then impatience self + 1 else 0 |}
         /\ let message :=
              debug_message c nlu_result faq_answer faq_response chat_response in
            (answered faq_answer = true
             /\ expectation t = None
             /\ response t
                = with_debug self message
                    ["FAQ" ++ newline ++ newline
                     ++ match faq_answer with Some a => a | None => "" end]%string)
            \/ (answered faq_answer = false
                /\ impatience (dialog t) < patience self
                /\ ((exists e, expectation t = None
                                /\ response t = ["ERROR: " ++ e]%string)
                    \/ (exists resp expect,
                          policy_forward c nlu_result = Returned (resp, expect)
                          /\ expectation t = Some expect
                          /\ response t
                             = with_debug self message
                                 (map (fun r => "GOAL-ORIENTED" ++ newline ++ r)%string
                                    resp))))
            \/ (answered faq_answer = false
                /\ patience self <= impatience (dialog t)
                /\ expectation t = None
                /\ response t
                   = with_debug self message
                       ["CHIT-CHAT" ++ newline ++ chat_response]%string)).
Proof.
  intros self u t Htext H. unfold generate_response in H.
  rewrite Htext in H. simpl in H.
  destruct (nlu_forward c (TextInput Geo (pipeline_feed c u)) "text") as [nlu_result|e].
  - right.
    destruct (faq c u) as [[faq_answer faq_response]|e] eqn:Hfaq; simpl in H; [|discriminate].
    destruct (chat c u) as [chat_response|e] eqn:Hchat; simpl in H; [|discriminate].
    exists nlu_result, faq_answer, faq_response, chat_response.
    split; [reflexivity|]. split; [reflexivity|].
    destruct (answered faq_answer) eqn:Hans.
    + injection H as <-. simpl. split; [reflexivity|]. left. auto.
    + match type of H with
      | (if ?a <? ?b then _ else _) = _ => destruct (Z.ltb_spec a b) as [Hlt|Hge]
      end.
      * destruct (policy_forward c nlu_result) as [[resp expect]|e] eqn:Hpol.
        -- injection H as <-. simpl. split; [reflexivity|]. right. left.
           split; [reflexivity|]. split; [exact Hlt|]. right. now exists resp, expect.
        -- injection H as <-. simpl. split; [reflexivity|]. right. left.
           split; [reflexivity|]. split; [exact Hlt|]. left. now exists e.
      * injection H as <-. simpl. split; [reflexivity|]. right. right. auto.
  - left. injection H as <-. now exists e.
Qed.

(** What one turn on a text message does to the counter, and when it
    answers chit-chat. *)
Lemma turn_step : forall self client_utterance t,
  PyStr.startswith "__geo__" client_utterance = false ->
  generate_response c self client_utterance = Ok t ->
  patience (dialog t) = patience self
  /\ debug (dialog t) = debug self
  /\ (0 <= impatience self -> 0 <= impatience (dialog t) <= impatience self + 1)
  /\ (forall x, In ("CHIT-CHAT" ++ newline ++ x)%string (response t) ->
        patience self <= impatience (dialog t)).
Proof.
  intros self u t Htext H. apply generate_response_cases in H; [|exact Htext].
  destruct H as [(e & ->)|(n & fa & fr & ch & _ & _ & Hd & Hcases)].
  - simpl. repeat split; try lia. intros x Hx. by_first_character Hx.
  - rewrite Hd. simpl. repeat split;
      try (destruct (uninformative c n fa); lia).
    intros x Hx. rewrite Hd in Hcases. simpl in Hcases.
    destruct Hcases as [(_ & _ & Hr)|[(_ & _ & [(e & _ & Hr)|(resp & ex & _ & _ & Hr)])
                                     |(_ & Hp & _ & _)]];
      try (rewrite Hr in Hx; by_first_character Hx).
    exact Hp.
Qed.

End TurnFacts.

(** X13. In a turn on a text message that returns: a FAQ line in the
    response means that the counter of impatience was reset and that no
    expectation was passed to the NLU model; a chit-chat line means that the
    counter, as updated in the turn, has reached [patience], that no
    expectation was passed, and, for a positive [patience], that the turn
    raised the counter by one (the case in which it found no slot, no intent
    and no FAQ answer); an expectation is passed only when the counter is
    below [patience], and then every line of the policy is in the response
    behind the goal-oriented heading. *)
Theorem turn_routing :
  forall (NLU Geo Expect : Type) (c : collaborators NLU Geo Expect)
         (self : Dialog) (client_utterance : string) (t : turn Expect),
    PyStr.startswith "__geo__" client_utterance = false ->
    generate_response c self client_utterance = Ok t ->
    (forall x,
        In ("FAQ" ++ newline ++ newline ++ x)%string (response t) ->
        impatience (dialog t) = 0 /\ expectation t = None)
    /\ (forall x,
          In ("CHIT-CHAT" ++ newline ++ x)%string (response t) ->
          patience self <= impatience (dialog t)
          /\ expectation t = None
          /\ (0 < patience self -> impatience (dialog t) = impatience self + 1))
    /\ (forall expect,
          expectation t = Some expect ->
          impatience (dialog t) < patience self
          /\ exists nlu_result resp,
               policy_forward c nlu_result = Returned (resp, expect)
               /\ forall r, In r resp ->
                    In ("GOAL-ORIENTED" ++ newline ++ r)%string (response t)).
Proof.
  intros NLU Geo Expect c self u t Htext H.
  apply generate_response_cases in H; [|exact Htext].
  destruct H as [(e & ->)|(n & fa & fr & ch & _ & _ & Hd & Hcases)].
  - simpl.
    split; [intros x Hx; by_first_character Hx|].
    split; [intros x Hx; by_first_character Hx|].
    intros expect Hex. discriminate.
  - rewrite Hd in *. simpl in *.
    destruct Hcases as [(Ha & He & Hr)|[(Ha & Hlt & [(e & He & Hr)|(resp & ex & Hp & He & Hr)])
                                       |(Ha & Hp & He & Hr)]].
    + unfold uninformative in *. rewrite Ha in *.
      rewrite !andb_false_r in *. simpl in *.
      split; [intros x Hx; now split|].
      split; [intros x Hx; rewrite Hr in Hx; by_first_character Hx|].
      intros expect Hex. congruence.
    + split; [intros x Hx; rewrite Hr in Hx; by_first_character Hx|].
      split; [intros x Hx; rewrite Hr in Hx; by_first_character Hx|].
      intros expect Hex. congruence.
    + split; [intros x Hx; rewrite Hr in Hx; by_first_character Hx|].
      split; [intros x Hx; rewrite Hr in Hx; by_first_character Hx|].
      intros expect Hex. split; [exact Hlt|].
      exists n, resp. split; [congruence|].
      intros r Hin. rewrite Hr. unfold with_debug.
      destruct (debug self); [right|];
        apply (in_map (fun r0 => ("GOAL-ORIENTED" ++ newline ++ r0)%string)); exact Hin.
    + split; [intros x Hx; rewrite Hr in Hx; by_first_character Hx|].
      split.
      * intros x Hx. split; [exact Hp|]. split; [exact He|].
        intros Hpos. destruct (uninformative c n fa); [reflexivity | lia].
      * intros expect Hex. congruence.
Qed.

(** The third turn without anything found, with [patience] 1. *)
Lemma turn_routing_witness :
  patience {| debug := false; patience := 1; impatience := 2 |}
  <= impatience {| debug := false; patience := 1; impatience := 3 |}.
Proof.
  exact (proj1 (proj1 (proj2
           (@turn_routing _ _ _ quiet_collaborators
              {| debug := false; patience := 1; impatience := 2 |} "hello"
              {| response := [("CHIT-CHAT" ++ newline ++ "hm")%string];
                 dialog := {| debug := false; patience := 1; impatience := 3 |};
                 expectation := None |}
              eq_refl eq_refl))
           "hm" (or_introl eq_refl))).
Defined.

Lemma converse_bounds :
  forall (NLU Geo Expect : Type) (turns : list (collaborators NLU Geo Expect * string))
         (self : Dialog) (responses : list (list string)) (final : Dialog),
    Forall (fun said => PyStr.startswith "__geo__" (snd said) = false) turns ->
    0 <= impatience self ->
    converse self turns = Ok (responses, final) ->
    patience final = patience self
    /\ 0 <= impatience final <= impatience self + Z.of_nat (List.length turns)
    /\ List.length responses = List.length turns
    /\ forall k resp x,
         nth_error responses k = Some resp ->
         In ("CHIT-CHAT" ++ newline ++ x)%string resp ->
         patience self <= impatience self + Z.of_nat k + 1.
Proof.
  intros NLU Geo Expect. induction turns as [|[c u] rest IH];
    intros self responses final Htext Hpos H; simpl in H.
  - injection H as <- <-. simpl. repeat split; try lia.
    intros k resp x Hk. destruct k; discriminate.
  - destruct (generate_response c self u) as [t|e] eqn:Ht; simpl in H; [|discriminate].
    destruct (converse (dialog t) rest) as [[later final']|e] eqn:Hl; simpl in H;
      [|discriminate].
    injection H as <- <-.
    inversion Htext as [|said rest' Hu Hrest]; subst. simpl in Hu.
    destruct (turn_step c self u Hu Ht) as (Hpat & _ & Himp & Hchit).
    specialize (Himp Hpos).
    destruct (IH (dialog t) later final' Hrest (proj1 Himp) Hl) as (Hp & Hb & Hlen & Hlater).
    split; [congruence|]. split; [simpl List.length; lia|]. split; [simpl; congruence|].
    intros k resp x Hk Hin. destruct k as [|k]; simpl in Hk.
    + injection Hk as <-. specialize (Hchit x Hin). lia.
    + specialize (Hlater k resp x Hk Hin). rewrite Hpat in Hlater. lia.
Qed.

(** X14. In a dialog of text messages that starts with the counter at 0,
    after any number of turns that return, the counter lies between 0 and
    the number of turns, there is one response for each turn, and a
    chit-chat line occurs in the response of no turn before the turn of
    number [patience]. *)
Theorem chit_chat_needs_patience :
  forall (NLU Geo Expect : Type) (turns : list (collaborators NLU Geo Expect * string))
         (debug_ : bool) (patience_ : Z) (responses : list (list string)) (final : Dialog),
    Forall (fun said => PyStr.startswith "__geo__" (snd said) = false) turns ->
    converse (Dialog_init debug_ patience_) turns = Ok (responses, final) ->
    0 <= impatience final <= Z.of_nat (List.length turns)
    /\ List.length responses = List.length turns
    /\ forall k resp x,
         nth_error responses k = Some resp ->
         In ("CHIT-CHAT" ++ newline ++ x)%string resp ->
         patience_ <= Z.of_nat k + 1.
Proof.
  intros NLU Geo Expect turns debug_ patience_ responses final Htext H.
  destruct (@converse_bounds NLU Geo Expect turns (Dialog_init debug_ patience_)
              responses final Htext (Z.le_refl 0) H) as (_ & Hb & Hlen & Hk).
  simpl in Hb, Hk. split; [lia|]. split; [exact Hlen|].
  intros k resp x Hn Hin. specialize (Hk k resp x Hn Hin). lia.
Qed.

(** Three turns without anything found, with the default [patience] 3. *)
Lemma chit_chat_needs_patience_witness :
  0 <= impatience {| debug := false; patience := 3; impatience := 3 |}
  <= Z.of_nat (List.length [(quiet_collaborators, "hello"); (quiet_collaborators, "well");
                            (quiet_collaborators, "so")]).
Proof.
  assert (Htext : Forall (fun said : collaborators (bool * option string) unit string * string =>
                            PyStr.startswith "__geo__" (snd said) = false)
                    [(quiet_collaborators, "hello"); (quiet_collaborators, "well");
                     (quiet_collaborators, "so")])
    by (repeat constructor).
  exact (proj1 (@chit_chat_needs_patience _ _ _
                  [(quiet_collaborators, "hello"); (quiet_collaborators, "well");
                   (quiet_collaborators, "so")]
                  false 3
                  [[("GOAL-ORIENTED" ++ newline ++ "Which currency?")%string];
                   [("GOAL-ORIENTED" ++ newline ++ "Which currency?")%string];
                   [("CHIT-CHAT" ++ newline ++ "hm")%string]]
                  {| debug := false; patience := 3; impatience := 3 |}
                  Htext eq_refl)).
Defined.

Lemma split_first_space_without_space : forall s,
  ~ In (ascii_of_nat 32) (list_ascii_of_string s) -> split_first_space s = [s].
Proof.
  induction s as [|a rest IH]; intros H; [reflexivity|].
  simpl in *. destruct (Ascii.eqb_spec a (ascii_of_nat 32)) as [->|Hne].
  - exfalso. apply H. now left.
  - rewrite IH; [reflexivity|]. intros Hin. apply H. now right.
Qed.

(** X15. Failures of a turn. A geo message without a space raises
    [IndexError], and an exception of the evaluation of its argument
    propagates. For a text message: when the NLU model raises, the response
    is the NLU error line and the dialog object is unchanged, whatever the
    FAQ and chit-chat services do; when the NLU model returns, an exception
    of the FAQ service propagates, and so does an exception of the chit-chat
    service, even if the FAQ answered; when the policy raises, the response
    is the error line alone, the counter keeps its update and no expectation
    is passed to the NLU model. *)
Theorem turn_failures :
  forall (NLU Geo Expect : Type) (c : collaborators NLU Geo Expect)
         (self : Dialog) (client_utterance : string),
    (PyStr.startswith "__geo__" client_utterance = true ->
     (~ In (ascii_of_nat 32) (list_ascii_of_string client_utterance) ->
      generate_response c self client_utterance = Raise IndexError)
     /\ (forall before arg others e,
           split_first_space client_utterance = before :: arg :: others ->
           eval_geo c arg = Raise e ->
           generate_response c self client_utterance = Raise e))
    /\ (PyStr.startswith "__geo__" client_utterance = false ->
        let input := TextInput Geo (pipeline_feed c client_utterance) in
        (forall e,
            nlu_forward c input "text" = Caught e ->
            generate_response c self client_utterance
            = Ok {| response := ["NLU ERROR: " ++ e]%string; dialog := self;
                    expectation := None |})
        /\ (forall nlu_result e,
              nlu_forward c input "text" = Returned nlu_result ->
              faq c client_utterance = Raise e ->
              generate_response c self client_utterance = Raise e)
        /\ (forall nlu_result faq_result e,
              nlu_forward c input "text" = Returned nlu_result ->
              faq c client_utterance = Ok faq_result ->
              chat c client_utterance = Raise e ->
              generate_response c self client_utterance = Raise e)
        /\ (forall nlu_result faq_answer faq_response chat_response e,
              nlu_forward c input "text" = Returned nlu_result ->
              faq c client_utterance = Ok (faq_answer, faq_response) ->
              chat c client_utterance = Ok chat_response ->
              answered faq_answer = false ->
              (if uninformative c nlu_result faq_answer then impatience self + 1 else 0)
              < patience self ->
              policy_forward c nlu_result = Caught e ->
              generate_response c self client_utterance
              = Ok {| response := ["ERROR: " ++ e]%string;
                      dialog :=
                        {| debug := debug self; patience := patience self;
                           impatience := if uninformative c nlu_result faq_answer
                                         then impatience self + 1 else 0 |};
                      expectation := None |})).
Proof.
  intros NLU Geo Expect c self u. split.
  - intros Hgeo. split.
    + intros Hspace. unfold generate_response. rewrite Hgeo.
      now rewrite (split_first_space_without_space _ Hspace).
    + intros before arg others e Hsplit Heval. unfold generate_response.
      rewrite Hgeo, Hsplit. simpl. now rewrite Heval.
  - intros Htext input. unfold input. split; [|split; [|split]].
    + intros e Hnlu. unfold generate_response. rewrite Htext. simpl. now rewrite Hnlu.
    + intros n e Hnlu Hfaq. unfold generate_response. rewrite Htext. simpl.
      now rewrite Hnlu, Hfaq.
    + intros n fr e Hnlu Hfaq Hchat. unfold generate_response. rewrite Htext. simpl.
      now rewrite Hnlu, Hfaq, Hchat.
    + intros n fa fr ch e Hnlu Hfaq Hchat Hans Hlt Hpol.
      unfold generate_response. rewrite Htext. simpl.
      rewrite Hnlu, Hfaq, Hchat. simpl. rewrite Hans.
      apply Z.ltb_lt in Hlt. rewrite Hlt, Hpol. reflexivity.
Qed.

(** A text message when the NLU model and both services are down. *)
Lemma turn_failures_witness :
  generate_response broken_collaborators (Dialog_init false 3) "hello"
  = Ok {| response := ["NLU ERROR: down"]; dialog := Dialog_init false 3;
          expectation := None |}.
Proof.
  exact (proj1 (proj2 (@turn_failures _ _ _ broken_collaborators (Dialog_init false 3)
                         "hello") eq_refl) "down" eq_refl).
Defined.
